(** * parser-combinator: the combinator engine of [src/index.ts]

    A shallow embedding of the TypeScript parser-combinator library and the
    properties of its evaluation semantics.

    Layout: the JavaScript values the code handles, the regular-expression
    engine behind [RegExp.prototype.exec], the result model, the parser
    core ([createParser] and its methods), the structural combinators and
    the two leaf matchers; then the theorems. *)

From Stdlib Require Import String Ascii List Arith Bool Lia.
Import ListNotations.
Local Open Scope string_scope.
Local Open Scope list_scope.

Set Implicit Arguments.

(* ================================================================== *)
(** * JavaScript strings *)

(** A value the code treats as a string. TypeScript types the cursor and
    [unconsumed] as [string], but a destructured capture of
    [RegExp.prototype.exec] is [undefined] when its group took no part in
    the match, so the value that flows through the combinators is a string
    or [undefined] ([None]). *)
Definition jsstr : Type := option string.

(** [String(v)], as template literals and [exec] apply it. *)
Definition ToString (v : jsstr) : string :=
  match v with
  | Some s => s
  | None => "undefined"
  end.

(** [v === ""] *)
Definition is_empty_string (v : jsstr) : bool :=
  match v with
  | Some EmptyString => true
  | _ => false
  end.

(** The first [n] characters of [s]. *)
Fixpoint take (n : nat) (s : string) : string :=
  match n, s with
  | S n', String a s' => String a (take n' s')
  | _, _ => EmptyString
  end.

(** [t] is a literal suffix of [s]. *)
Definition is_suffix (t s : string) : Prop :=
  exists pre : string, s = (pre ++ t)%string.

(** [s.startsWith(t)], returning what follows [t]. *)
Fixpoint strip_prefix (t s : string) : option string :=
  match t, s with
  | EmptyString, _ => Some s
  | String a t', String b s' => if Ascii.eqb b a then strip_prefix t' s' else None
  | String _ _, EmptyString => None
  end.

(* ================================================================== *)
(** * The regular-expression engine

    [regexp] and [str] both build a [RegExp] and call [exec] on it. The
    engine is the backtracking matcher of ECMAScript (the continuation
    semantics of the language specification) for the pattern syntax below;
    every pattern the library itself builds is in it. *)

Module RegExp.

(** Pattern syntax trees: what the engine parses a pattern text into. *)
Inductive regex : Type :=
| Empty                      (* the empty pattern *)
| Char (ch : ascii)          (* a character that matches itself, escaped or not *)
| AnyChar                    (* [\s\S] *)
| AssertStart                (* ^ *)
| AssertEnd                  (* $ *)
| Seq (r1 r2 : regex)        (* r1r2 *)
| Alt (r1 r2 : regex)        (* r1|r2 *)
| Star (r : regex)           (* r*, greedy *)
| Group (r : regex).         (* (r), a capturing group *)

(** Number of capturing groups (left parentheses) of a pattern. *)
Fixpoint groups (r : regex) : nat :=
  match r with
  | Seq r1 r2 | Alt r1 r2 => groups r1 + groups r2
  | Star r1 => groups r1
  | Group r1 => S (groups r1)
  | _ => 0
  end.

(** A match state: the part of the input not matched yet (the input from
    [endIndex] on) and the captures, group [i + 1] at index [i]. *)
Record MatchState : Type := mkState {
  rest : string;
  captures : list (option string)
}.

Definition Continuation : Type := MatchState -> option MatchState.

(** The text matched between state [x] and a later state [y]. *)
Definition consumed (x y : string) : string :=
  take (String.length x - String.length y) x.

Fixpoint set_capture (i : nat) (v : option string) (caps : list (option string))
  : list (option string) :=
  match i, caps with
  | _, [] => []
  | 0, _ :: caps' => v :: caps'
  | S i', c :: caps' => c :: set_capture i' v caps'
  end.

(** Captures [parenIndex .. parenIndex + parenCount - 1] reset to undefined. *)
Fixpoint clear_captures (parenIndex parenCount : nat) (caps : list (option string))
  : list (option string) :=
  match parenCount with
  | 0 => caps
  | S k => set_capture parenIndex None (clear_captures (S parenIndex) k caps)
  end.

(** RepeatMatcher for [m*] (min = 0, max = infinity, greedy), where [m] is
    the matcher of the starred atom: the atom's captures are reset before
    each iteration, an iteration that matches the empty text is refused,
    and when no further iteration leads to a match the continuation runs
    from [x]. Every accepted iteration shortens [rest], so
    [S (length (rest x))] rounds of [fuel] are never used up. *)
Fixpoint repeatMatcher (m : MatchState -> Continuation -> option MatchState)
  (parenIndex parenCount : nat) (fuel : nat) (x : MatchState) (c : Continuation)
  {struct fuel} : option MatchState :=
  match fuel with
  | 0 => c x
  | S fuel' =>
      let xr := mkState (rest x)
                  (clear_captures parenIndex parenCount (captures x)) in
      match m xr (fun y =>
                    if Nat.eqb (String.length (rest y)) (String.length (rest x))
                    then None
                    else repeatMatcher m parenIndex parenCount fuel' y c) with
      | Some z => Some z
      | None => c x
      end
  end.

(** The matcher of pattern [r], whose first group is number [parenIndex],
    run from state [x] with continuation [c]; [None] is failure. *)
Fixpoint matcher (input : string) (r : regex) (parenIndex : nat)
  (x : MatchState) (c : Continuation) {struct r} : option MatchState :=
  match r with
  | Empty => c x
  | Char ch =>
      match rest x with
      | String a s' => if Ascii.eqb a ch then c (mkState s' (captures x)) else None
      | EmptyString => None
      end
  | AnyChar =>
      match rest x with
      | String _ s' => c (mkState s' (captures x))
      | EmptyString => None
      end
  | AssertStart =>
      if Nat.eqb (String.length (rest x)) (String.length input) then c x else None
  | AssertEnd =>
      match rest x with
      | EmptyString => c x
      | String _ _ => None
      end
  | Seq r1 r2 =>
      matcher input r1 parenIndex x
        (fun y => matcher input r2 (parenIndex + groups r1) y c)
  | Alt r1 r2 =>
      match matcher input r1 parenIndex x c with
      | Some z => Some z
      | None => matcher input r2 (parenIndex + groups r1) x c
      end
  | Star r1 =>
      repeatMatcher (matcher input r1 parenIndex) parenIndex (groups r1)
        (S (String.length (rest x))) x c
  | Group r1 =>
      matcher input r1 (S parenIndex) x
        (fun y =>
           c (mkState (rest y)
                (set_capture parenIndex (Some (consumed (rest x) (rest y)))
                   (captures y))))
  end.

(** The search of [exec] on a pattern without the [g] and [y] flags: the
    match is tried at index 0, then 1, ... up to the input's length. The
    result array holds the matched text, then the captures. *)
Fixpoint search (input : string) (r : regex) (from : string)
  : option (list (option string)) :=
  match matcher input r 0 (mkState from (List.repeat None (groups r))) Some with
  | Some y => Some (Some (consumed from (rest y)) :: captures y)
  | None =>
      match from with
      | EmptyString => None
      | String _ from' => search input r from'
      end
  end.

Definition exec (r : regex) (input : string) : option (list (option string)) :=
  search input r input.

End RegExp.

Import RegExp.

(** A [RegExp] object: its pattern text ([source]), its flags, and the
    syntax tree the engine reads the text as. How pattern text is parsed
    is the engine's business and is not modelled: an object pairs the text
    the messages print with the tree the matcher runs. *)
Record RegExpObject : Type := mkRegExp {
  source : string;
  flags : string;
  pattern : regex
}.

(** [`${exp}`]: [RegExp.prototype.toString]. *)
Definition RegExp_toString (exp : RegExpObject) : string :=
  ("/" ++ source exp ++ "/" ++ flags exp)%string.

(* ================================================================== *)
(** * Result model *)

(** [type FailureObject = {message:string, causes?:FailureObject[]}];
    an absent [causes] is [None]. *)
#[warnings="-register-all"]
Inductive FailureObject : Type :=
  mkFailure { message : string; causes : option (list FailureObject) }.

(** [ParseResultInner<T>]: the Outcome of [consume]. *)
Inductive ParseResultInner (T : Type) : Type :=
| Success (content : T) (unconsumed : jsstr)
    (suppressedFailures : option (list FailureObject))
| Failure (msg : string) (cs : option (list FailureObject)).

Arguments Failure {T} msg cs.

(** [ParseResult<T>]: the Result of [parse]. *)
Inductive ParseResult (T : Type) : Type :=
| Match (content : T)
| ParseFailure (msg : string) (cs : option (list FailureObject)).

Arguments ParseFailure {T} msg cs.

(* ================================================================== *)
(** * Evaluation

    A call either returns a value, or throws the [TypeError] of a method
    call on [undefined], or never returns (unbounded recursion, which the
    run time ends by exhausting the stack). [fuel] bounds the depth of
    the recursion of [repeat]; [OutOfFuel] stands for a call that has not
    returned within it. *)

Inductive Run (A : Type) : Type :=
| Done (a : A)
| TypeError
| OutOfFuel.

Arguments TypeError {A}.
Arguments OutOfFuel {A}.

Definition bind {A B : Type} (m : Run A) (k : A -> Run B) : Run B :=
  match m with
  | Done a => k a
  | TypeError => TypeError
  | OutOfFuel => OutOfFuel
  end.

Notation "x <- m ;; k" := (bind m (fun x => k))
  (at level 61, m at next level, right associativity).

(* ================================================================== *)
(** * Parser core *)

(** A parser is the object [createParser] builds around a [consume]
    function; its methods are the functions below, each closed over
    [arg.consume] as in the source. [consume] takes the fuel of the call
    and hands it on unchanged to the parsers it calls. *)
Record Parser (T : Type) : Type := createParser {
  consume : nat -> jsstr -> Run (ParseResultInner T)
}.

Definition then_ {T R : Type} (arg : Parser T) (action : T -> R) : Parser R :=
  createParser (fun fuel str =>
    res <- consume arg fuel str ;;
    match res with
    | Success content unconsumed _ =>
        Done (Success (action content) unconsumed None)
    | Failure m cs => Done (Failure m cs)
    end).

(** The callback is an observer: it is called with the input and the
    outcome, and what it returns is dropped. *)
Definition onParsed {T : Type} (arg : Parser T)
  (cb : jsstr -> ParseResultInner T -> unit) : Parser T :=
  createParser (fun fuel str =>
    res <- consume arg fuel str ;;
    let _ := cb str res in
    Done res).

Definition parse {T : Type} (arg : Parser T) (fuel : nat) (str : jsstr)
  : Run (ParseResult T) :=
  res <- consume arg fuel str ;;
  match res with
  | Failure m cs => Done (ParseFailure m cs)
  | Success content unconsumed suppressed =>
      if is_empty_string unconsumed then Done (Match content)
      else Done (ParseFailure
                   ("Expect EOF. But '" ++ ToString unconsumed ++ "' was found")
                   suppressed)
  end.

Definition validate {T : Type} (arg : Parser T) (predicate : T -> bool)
  : Parser T :=
  createParser (fun fuel str =>
    res <- consume arg fuel str ;;
    match res with
    | Success content _ _ =>
        if predicate content then Done res
        else Done (Failure "Validation Error" None)
    | Failure _ _ => Done res
    end).

Definition not_ {T U : Type} (arg : Parser T) (parser : Parser U) : Parser T :=
  createParser (fun fuel str =>
    checked <- consume parser fuel str ;;
    match checked with
    | Success _ _ _ => Done (Failure "TODO:" None)
    | Failure _ _ => consume arg fuel str
    end).

(* ================================================================== *)
(** * Combinators *)

(** [factory()] is called anew at every [consume]. *)
Definition lazy {T : Type} (factory : unit -> Parser T) : Parser T :=
  createParser (fun fuel str => consume (factory tt) fuel str).

(** [fn] of [_matchSeq]. The list is [parsers.slice(num)], the parsers from
    index [num] on: [parsers[num]] is its head and [parsers[num + 1]] the
    head of its tail. [fn] goes on to [num + 1] only when a parser is
    there, so [parsers[num]] is [undefined], and [parser.consume] a
    [TypeError], exactly when [sequence] was given no parser at all. *)
Fixpoint matchSeq_fn {T : Type} (parsers : list (Parser T)) (fuel : nat)
  (cur : jsstr) (prev : list T) {struct parsers}
  : Run (ParseResultInner (list T)) :=
  match parsers with
  | [] => TypeError
  | parser :: next =>
      res <- consume parser fuel cur ;;
      match res with
      | Success c unconsumed _ =>
          let content := prev ++ [c] in
          match next with
          | _ :: _ => matchSeq_fn next fuel unconsumed content
          | [] => Done (Success content unconsumed None)
          end
      | Failure m cs => Done (Failure m cs)
      end
  end.

Definition _matchSeq {T : Type} (fuel : nat) (str : jsstr)
  (parsers : list (Parser T)) : Run (ParseResultInner (list T)) :=
  matchSeq_fn parsers fuel str [].

Definition sequence {T : Type} (parsers : list (Parser T)) : Parser (list T) :=
  createParser (fun fuel str => _matchSeq fuel str parsers).

(** [fn] of [choice], over [parsers.slice(num)]; [failures] is [undefined]
    until the first alternative has failed. *)
Fixpoint choice_fn {T : Type} (parsers : list (Parser T)) (fuel : nat)
  (str : jsstr) (failures : option (list FailureObject)) {struct parsers}
  : Run (ParseResultInner T) :=
  match parsers with
  | [] => Done (Failure "No Matches" failures)
  | parser :: next =>
      res <- consume parser fuel str ;;
      match res with
      | Success content unconsumed _ =>
          Done (Success content unconsumed failures)
      | Failure m cs =>
          let failure := mkFailure m cs in
          choice_fn next fuel str
            (match failures with
             | Some fs => Some (fs ++ [failure])
             | None => Some [failure]
             end)
      end
  end.

Definition choice {T : Type} (parsers : list (Parser T)) : Parser T :=
  createParser (fun fuel str => choice_fn parsers fuel str None).

(** A default parameter [cur = str] takes its default when the argument
    passed is [undefined]. *)
Definition default_to (arg dflt : jsstr) : jsstr :=
  match arg with
  | Some _ => arg
  | None => dflt
  end.

(** [fn] of [repeat]. Nothing in the source bounds its recursion; [calls]
    is the depth left to it, and the parser itself is run with the fuel
    of the whole call. *)
Fixpoint repeat_fn {T : Type} (parser : Parser T) (fuel : nat) (str : jsstr)
  (calls : nat) (cur : jsstr) (acc : list T) {struct calls}
  : Run (ParseResultInner (list T)) :=
  match calls with
  | 0 => OutOfFuel
  | S calls' =>
      res <- consume parser fuel cur ;;
      match res with
      | Success c unconsumed _ =>
          let content := acc ++ [c] in
          if negb (is_empty_string unconsumed)
          then repeat_fn parser fuel str calls' (default_to unconsumed str) content
          else Done (Success content unconsumed None)
      | Failure _ _ => Done (Success acc cur None)
      end
  end.

(** [fn()]: both parameters take their defaults, [cur = str] and
    [acc = []]. *)
Definition repeat {T : Type} (parser : Parser T) : Parser (list T) :=
  createParser (fun fuel str => repeat_fn parser fuel str fuel str []).

(* ================================================================== *)
(** * Leaf matchers *)

(** The matcher is [new RegExp(t)], [t] being the source of [exp] in a
    group of its own after [^], then a second group that takes any text
    up to [$]. Only the source of [exp] goes into it, its flags do not.
    The destructuring [[,content,unconsumed] = result] reads elements 1
    and 2 of the result array; an element of that array is a string, or
    [undefined] when its group took no part in the match, and so are
    [content] and [unconsumed]. *)
Definition regexp (exp : RegExpObject) : Parser jsstr :=
  let matcher :=
    Seq AssertStart
      (Seq (Group (pattern exp)) (Seq (Group (Star AnyChar)) AssertEnd)) in
  createParser (fun _ str =>
    match exec matcher (ToString str) with
    | None =>
        Done (Failure
                ("Regexp '" ++ RegExp_toString exp ++ "' not matched: '"
                   ++ ToString str ++ "'")
                None)
    | Some result =>
        Done (Success (nth 1 result None) (nth 2 result None) None)
    end).

(** The pattern the text [escapeRegExp(text)] is read as: every character
    of [text], escaped where the pattern syntax gives it a meaning, is a
    pattern character that matches itself. *)
Fixpoint escapeRegExp (text : string) : regex :=
  match text with
  | EmptyString => Empty
  | String a text' => Seq (Char a) (escapeRegExp text')
  end.

(** The matcher is [new RegExp(t)], [t] being the escaped literal after
    [^], then a group that takes any text up to [$]. *)
Definition str (literal : string) : Parser string :=
  let escaped := escapeRegExp literal in
  let matcher :=
    Seq AssertStart (Seq escaped (Seq (Group (Star AnyChar)) AssertEnd)) in
  createParser (fun _ s =>
    match exec matcher (ToString s) with
    | None =>
        Done (Failure
                ("Literal '" ++ literal ++ "' not matched: '" ++ ToString s ++ "'")
                None)
    | Some result => Done (Success literal (nth 1 result None) None)
    end).

(* ================================================================== *)
(** * Relations the theorems are stated with *)

(** [seq_run fuel ps cur cs cur']: run from cursor [cur], the parsers [ps]
    succeed one after the other, each on what the one before left
    unconsumed; [cs] are their contents in order and [cur'] is the cursor
    after the last. *)
Inductive seq_run {T : Type} (fuel : nat)
  : list (Parser T) -> jsstr -> list T -> jsstr -> Prop :=
| seq_run_nil (cur : jsstr) : seq_run fuel [] cur [] cur
| seq_run_cons (p : Parser T) (ps : list (Parser T)) (cur : jsstr)
    (c : T) (u : jsstr) (sf : option (list FailureObject))
    (cs : list T) (cur' : jsstr) :
    consume p fuel cur = Done (Success c u sf) ->
    seq_run fuel ps u cs cur' ->
    seq_run fuel (p :: ps) cur (c :: cs) cur'.

(** Parser [p] fails on [s] with the message and causes of [f]. *)
Definition fails_with {T : Type} (fuel : nat) (s : jsstr) (p : Parser T)
  (f : FailureObject) : Prop :=
  consume p fuel s = Done (Failure (message f) (causes f)).

(** The failures collected so far as the optional field holds them: the
    field is absent while there is none. *)
Definition collected (fs : list FailureObject) : option (list FailureObject) :=
  match fs with
  | [] => None
  | _ :: _ => Some fs
  end.

(** [failures] after the failures [fs] have been appended one by one. *)
Definition extend (failures : option (list FailureObject))
  (fs : list FailureObject) : option (list FailureObject) :=
  match fs with
  | [] => failures
  | _ :: _ => Some (match failures with Some l => l | None => [] end ++ fs)
  end.

(** [repeat_run q cur cs cur']: the accumulation the specification of
    [repeat] describes, [q] being [consume] of the repeated parser. From
    cursor [cur]: when [q] fails the run stops there with nothing more
    accumulated; when it succeeds its content is appended and the cursor
    moves to its [unconsumed], and the run stops if that is the empty
    string and goes on from it otherwise. *)
Inductive repeat_run {T : Type} (q : jsstr -> Run (ParseResultInner T))
  : jsstr -> list T -> jsstr -> Prop :=
| repeat_stop_failure (cur : jsstr) (m : string)
    (cz : option (list FailureObject)) :
    q cur = Done (Failure m cz) ->
    repeat_run q cur [] cur
| repeat_stop_empty (cur : jsstr) (c : T) (sf : option (list FailureObject)) :
    q cur = Done (Success c (Some "") sf) ->
    repeat_run q cur [c] (Some "")
| repeat_step (cur : jsstr) (c : T) (u : jsstr)
    (sf : option (list FailureObject)) (cs : list T) (cur' : jsstr) :
    q cur = Done (Success c u sf) ->
    u <> Some "" ->
    repeat_run q u cs cur' ->
    repeat_run q cur (c :: cs) cur'.

(** Conditions under which [repeat] returns. The outcome of [p] does not
    change when more fuel is given. *)
Definition fuel_monotone {T : Type} (p : Parser T) : Prop :=
  forall n m c r, n <= m -> consume p n c = Done r -> consume p m c = Done r.

(** [p] returns an outcome on every string: for each there is a budget
    from which on [p] returns one and the same outcome. *)
Definition returns_on_every_string {T : Type} (p : Parser T) : Prop :=
  forall c : string,
    exists n r, forall m, n <= m -> consume p m (Some c) = Done r.

(** [p] returns an outcome on every string, at some budget. *)
Definition returns_on_strings {T : Type} (p : Parser T) : Prop :=
  forall c : string, exists n r, consume p n (Some c) = Done r.

(** Every success of [p] leaves the empty string or a string shorter than
    its input unconsumed. *)
Definition makes_progress {T : Type} (p : Parser T) : Prop :=
  forall n (c : string) x u sf,
    consume p n (Some c) = Done (Success x u sf) ->
    exists u' : string,
      u = Some u' /\ (u' = "" \/ String.length u' < String.length c).

(** Two patterns with a capturing group of their own: [/(a)b/] and
    [/(a)|b/]. *)
Definition re_group_ab : RegExpObject :=
  mkRegExp "(a)b" "" (Seq (Group (Char "a")) (Char "b")).

Definition re_group_a_or_b : RegExpObject :=
  mkRegExp "(a)|b" "" (Alt (Group (Char "a")) (Char "b")).

(** A state is reached from [x]: the match has moved forward, over the
    same captures array. *)
Definition reached_from (x y : MatchState) : Prop :=
  is_suffix (rest y) (rest x)
  /\ length (captures y) = length (captures x).





(** The suffix invariant of a parser: what a success on a string leaves
    unconsumed is a string, and a literal suffix of that input. *)
Definition suffix_invariant {T : Type} (p : Parser T) : Prop :=
  forall fuel (s : string) c u sf,
    consume p fuel (Some s) = Done (Success c u sf) ->
    exists u' : string, u = Some u' /\ is_suffix u' s.

(** The parsers built in finitely many steps with the public
    constructors from parsers built before, every pattern given to
    [regexp] being one of [ok]: [lazy] is among the constructors, over a
    factory whose parser is built already. A grammar that refers to
    itself through [lazy] has no such finite construction and is not
    among them. *)
Inductive built (ok : RegExpObject -> Prop) : forall T : Type, Parser T -> Prop :=
| built_str (literal : string) : built ok (str literal)
| built_regexp (exp : RegExpObject) : ok exp -> built ok (regexp exp)
| built_sequence (T : Type) (ps : list (Parser T)) :
    (forall p, In p ps -> built ok p) -> built ok (sequence ps)
| built_choice (T : Type) (ps : list (Parser T)) :
    (forall p, In p ps -> built ok p) -> built ok (choice ps)
| built_repeat (T : Type) (p : Parser T) :
    built ok p -> built ok (repeat p)
| built_lazy (T : Type) (factory : unit -> Parser T) :
    built ok (factory tt) -> built ok (lazy factory)
| built_then (T R : Type) (p : Parser T) (action : T -> R) :
    built ok p -> built ok (then_ p action)
| built_validate (T : Type) (p : Parser T) (predicate : T -> bool) :
    built ok p -> built ok (validate p predicate)
| built_onParsed (T : Type) (p : Parser T)
    (cb : jsstr -> ParseResultInner T -> unit) :
    built ok p -> built ok (onParsed p cb)
| built_not (T U : Type) (p : Parser T) (q : Parser U) :
    built ok p -> built ok q -> built ok (not_ p q).

(** A pattern without a capturing group of its own. *)
Definition no_group (exp : RegExpObject) : Prop := groups (pattern exp) = 0.

(** Any pattern. *)
Definition any_pattern (exp : RegExpObject) : Prop := True.

(** Two optional lists of failures put end to end. *)
Definition join_failures (a b : option (list FailureObject))
  : option (list FailureObject) :=
  match a, b with
  | None, _ => b
  | Some l, None => Some l
  | Some l, Some l' => Some (l ++ l')
  end.

(** The grammars, among those built in finitely many steps with the
    public constructors from patterns without capturing groups (so no
    grammar that refers to itself through [lazy]), in which [sequence] is
    given at least one parser and [repeat] a parser that makes
    progress. *)
Inductive well_formed : forall T : Type, Parser T -> Prop :=
| wf_str (literal : string) : well_formed (str literal)
| wf_regexp (exp : RegExpObject) : no_group exp -> well_formed (regexp exp)
| wf_sequence (T : Type) (ps : list (Parser T)) :
    ps <> [] ->
    (forall p, In p ps -> well_formed p) -> well_formed (sequence ps)
| wf_choice (T : Type) (ps : list (Parser T)) :
    (forall p, In p ps -> well_formed p) -> well_formed (choice ps)
| wf_repeat (T : Type) (p : Parser T) :
    well_formed p -> makes_progress p -> well_formed (repeat p)
| wf_lazy (T : Type) (factory : unit -> Parser T) :
    well_formed (factory tt) -> well_formed (lazy factory)
| wf_then (T R : Type) (p : Parser T) (action : T -> R) :
    well_formed p -> well_formed (then_ p action)
| wf_validate (T : Type) (p : Parser T) (predicate : T -> bool) :
    well_formed p -> well_formed (validate p predicate)
| wf_onParsed (T : Type) (p : Parser T)
    (cb : jsstr -> ParseResultInner T -> unit) :
    well_formed p -> well_formed (onParsed p cb)
| wf_not (T U : Type) (p : Parser T) (q : Parser U) :
    well_formed p -> well_formed q -> well_formed (not_ p q).

(** What a well-formed grammar is shown to keep: more fuel changes no
    outcome, a success leaves a suffix of the input, and every string
    gets an outcome. *)
Definition well_behaved {T : Type} (p : Parser T) : Prop :=
  fuel_monotone p /\ suffix_invariant p /\ returns_on_strings p.

(** [t] occurs in [input]. *)
Definition within (input t : string) : Prop :=
  exists l r : string, input = (l ++ t ++ r)%string.

(** Every capture that is set is a piece of the input. *)
Definition captures_within (input : string) (caps : list (option string))
  : Prop :=
  Forall (fun c => match c with
                   | Some t => within input t
                   | None => True
                   end) caps.

(** A state of a match over [input]. *)
Definition state_of (input : string) (x : MatchState) : Prop :=
  is_suffix (rest x) input /\ captures_within input (captures x).

(** The text side of [escapeRegExp]. A character of a string is a code
    unit, of which the model has the first 256. The class of the source
    holds the punctuation below and [\s], the white space: tab, line
    feed, vertical tab, form feed, carriage return, space and the
    no-break space. *)
Definition is_escaped_char (c : ascii) : bool :=
  existsb (Ascii.eqb c) (list_ascii_of_string "-[]{}()*+?.,\^$|#")
  || existsb (fun n => Nat.eqb (nat_of_ascii c) n) [9; 10; 11; 12; 13; 32; 160].

(** [text.replace(class, t)] with the [g] flag, [t] being a backslash
    and the character matched: every character of the class gets a
    backslash before it, the others stay. *)
Fixpoint escapeRegExp_text (text : string) : string :=
  match text with
  | EmptyString => EmptyString
  | String c text' =>
      if is_escaped_char c
      then String "\" (String c (escapeRegExp_text text'))
      else String c (escapeRegExp_text text')
  end.

(** The characters with a meaning of their own in a pattern. *)
Definition is_syntax_char (c : ascii) : bool :=
  existsb (Ascii.eqb c) (list_ascii_of_string "^$\.*+?()[]{}|").

(** The characters that may go on an identifier (ID_Continue), among the
    256 code units of the model: digits, letters, the underscore and the
    letters and letter-like signs above 127. *)
Definition is_id_continue (c : ascii) : bool :=
  let n := nat_of_ascii c in
  let between lo hi := Nat.leb lo n && Nat.leb n hi in
  between 48 57 || between 65 90 || Nat.eqb n 95 || between 97 122
  || Nat.eqb n 170 || Nat.eqb n 181 || Nat.eqb n 183 || Nat.eqb n 186
  || between 192 214 || between 216 246 || between 248 255.

(** The engine's rule for an identity escape in a pattern without the
    [u] flag: a backslash before a character that may not go on an
    identifier stands for that character. A backslash before a letter or
    a digit is another escape (a class, an assertion, a control
    character, a back reference) or, for the letters left, an identity
    escape only by the engine's leniency; none of them is read here. *)
Definition is_identity_escape (c : ascii) : bool := negb (is_id_continue c).

(** How the engine reads a pattern text made of plain characters and
    identity escapes: an identity escape matches its character, a
    character without a meaning of its own matches itself; any other
    text is outside this fragment. *)
Fixpoint read_literal_pattern (pat : string) : option regex :=
  match pat with
  | EmptyString => Some Empty
  | String c pat' =>
      if Ascii.eqb c "\" then
        match pat' with
        | String d pat'' =>
            if is_identity_escape d
            then option_map (Seq (Char d)) (read_literal_pattern pat'')
            else None
        | EmptyString => None
        end
      else if is_syntax_char c then None
      else option_map (Seq (Char c)) (read_literal_pattern pat')
  end.

(* ================================================================== *)
(** * Examples of the specification *)

Example str_consume_abc :
  consume (str "ab") 0 (Some "abc") = Done (Success "ab" (Some "c") None).
Proof. reflexivity. Qed.

Example str_parse_ab : parse (str "ab") 0 (Some "ab") = Done (Match "ab").
Proof. reflexivity. Qed.

Example str_parse_ax :
  parse (str "ab") 0 (Some "ax")
  = Done (ParseFailure "Literal 'ab' not matched: 'ax'" None).
Proof. reflexivity. Qed.

Example sequence_parse_ab :
  parse (sequence [str "a"; str "b"]) 0 (Some "ab") = Done (Match ["a"; "b"]).
Proof. reflexivity. Qed.

Example sequence_parse_ac :
  parse (sequence [str "a"; str "b"]) 0 (Some "ac")
  = Done (ParseFailure "Literal 'b' not matched: 'c'" None).
Proof. reflexivity. Qed.

Example choice_consume_b :
  consume (choice [str "a"; str "b"]) 0 (Some "b")
  = Done (Success "b" (Some "")
            (Some [mkFailure "Literal 'a' not matched: 'b'" None])).
Proof. reflexivity. Qed.

Example repeat_consume_bbb :
  consume (repeat (str "a")) 1 (Some "bbb") = Done (Success [] (Some "bbb") None).
Proof. reflexivity. Qed.

Example repeat_parse_aaa :
  parse (repeat (str "a")) 3 (Some "aaa") = Done (Match ["a"; "a"; "a"]).
Proof. reflexivity. Qed.

Example repeat_parse_aaab :
  parse (repeat (str "a")) 4 (Some "aaab")
  = Done (ParseFailure "Expect EOF. But 'b' was found" None)
  /\ consume (repeat (str "a")) 4 (Some "aaab")
     = Done (Success ["a"; "a"; "a"] (Some "b") None).
Proof. split; reflexivity. Qed.

Example not_consume_abc :
  consume (not_ (str "a") (str "a")) 0 (Some "abc") = Done (Failure "TODO:" None)
  /\ consume (not_ (str "a") (str "z")) 0 (Some "abc")
     = Done (Success "a" (Some "bc") None).
Proof. split; reflexivity. Qed.

(* ================================================================== *)
(** * The engine only moves forward *)

Lemma is_suffix_refl (s : string) : is_suffix s s.
Proof. now exists "". Qed.

Lemma is_suffix_trans (s t u : string) :
  is_suffix s t -> is_suffix t u -> is_suffix s u.
Proof.
  intros [p ->] [q ->]. exists (q ++ p)%string.
  induction q as [|a q IH]; cbn; [reflexivity|now rewrite IH].
Qed.

Lemma is_suffix_tail (a : ascii) (s : string) : is_suffix s (String a s).
Proof. now exists (String a ""). Qed.

Lemma length_append (s t : string) :
  String.length (s ++ t) = String.length s + String.length t.
Proof. induction s as [|a s IH]; cbn; [reflexivity|now rewrite IH]. Qed.

Lemma is_suffix_length (s t : string) :
  is_suffix s t -> String.length s <= String.length t.
Proof. intros [p ->]. rewrite length_append. lia. Qed.

Lemma take_app (pre t : string) : take (String.length pre) (pre ++ t) = pre.
Proof.
  induction pre as [|a pre IH]; cbn; [now destruct t|now rewrite IH].
Qed.

Lemma consumed_app (pre t : string) : consumed (pre ++ t) t = pre.
Proof.
  unfold consumed. rewrite length_append.
  replace (String.length pre + String.length t - String.length t)
    with (String.length pre) by lia.
  apply take_app.
Qed.

Lemma length_set_capture (i : nat) (v : option string) :
  forall caps, length (set_capture i v caps) = length caps.
Proof.
  induction i as [|i IH]; intros [|c caps]; cbn; try reflexivity.
  now rewrite IH.
Qed.

Lemma length_clear_captures (k : nat) :
  forall i caps, length (clear_captures i k caps) = length caps.
Proof.
  induction k as [|k IH]; intros i caps; cbn; [reflexivity|].
  now rewrite length_set_capture, IH.
Qed.

Lemma reached_refl (x : MatchState) : reached_from x x.
Proof. split; [apply is_suffix_refl|reflexivity]. Qed.

Lemma reached_trans (x y z : MatchState) :
  reached_from x y -> reached_from y z -> reached_from x z.
Proof.
  intros [Hs1 Hl1] [Hs2 Hl2]. split; [|congruence].
  eapply is_suffix_trans; eassumption.
Qed.

Lemma repeatMatcher_forward
  (m : MatchState -> Continuation -> option MatchState) (i k : nat) :
  (forall x c z, m x c = Some z -> exists y, c y = Some z /\ reached_from x y) ->
  forall fuel x c z,
    repeatMatcher m i k fuel x c = Some z ->
    exists y, c y = Some z /\ reached_from x y.
Proof.
  intros Hm. induction fuel as [|fuel IH]; intros x c z H; cbn in H.
  - exists x. split; [assumption|apply reached_refl].
  - match type of H with
    | match ?e with _ => _ end = _ => destruct e as [z'|] eqn:E
    end.
    + inversion H; subst. apply Hm in E.
      destruct E as (y1 & Hd & Hs1 & Hl1). cbn in Hs1, Hl1.
      destruct (Nat.eqb _ _); [discriminate|].
      destruct (IH _ _ _ Hd) as (y & Hc & Hs & Hl).
      exists y. split; [assumption|]. split.
      * eapply is_suffix_trans; eassumption.
      * now rewrite Hl, Hl1, length_clear_captures.
    + exists x. split; [assumption|apply reached_refl].
Qed.

(** A match is a result of the continuation, called on a state reached
    from the one the matcher started in. *)
Lemma matcher_forward (input : string) (r : regex) :
  forall i x c z,
    matcher input r i x c = Some z ->
    exists y, c y = Some z /\ reached_from x y.
Proof.
  induction r as [|ch| | | |r1 IH1 r2 IH2|r1 IH1 r2 IH2|r1 IH1|r1 IH1];
    intros i x c z H; cbn [matcher] in H.
  - exists x. split; [assumption|apply reached_refl].
  - destruct x as [[|a s'] caps]; cbn in H; [discriminate|].
    destruct (Ascii.eqb a ch); [|discriminate].
    eexists. split; [eassumption|].
    split; [apply is_suffix_tail|reflexivity].
  - destruct x as [[|a s'] caps]; cbn in H; [discriminate|].
    eexists. split; [eassumption|].
    split; [apply is_suffix_tail|reflexivity].
  - destruct (Nat.eqb _ _); [|discriminate].
    exists x. split; [assumption|apply reached_refl].
  - destruct (rest x) eqn:E; [|discriminate].
    exists x. split; [assumption|apply reached_refl].
  - apply IH1 in H. destruct H as (y1 & H & H1).
    apply IH2 in H. destruct H as (y & H & H2).
    exists y. split; [assumption|]. eapply reached_trans; eassumption.
  - destruct (matcher input r1 i x c) as [z'|] eqn:E.
    + inversion H; subst. now apply IH1 in E.
    + now apply IH2 in H.
  - eapply repeatMatcher_forward; [|exact H].
    intros x' c' z'. apply IH1.
  - apply IH1 in H. destruct H as (y1 & H & Hs1 & Hl1).
    eexists. split; [exact H|]. split; [exact Hs1|].
    cbn. now rewrite length_set_capture.
Qed.

(* ================================================================== *)
(** * The bound on the iterations of a starred pattern is never reached *)

Lemma reached_clear (x : MatchState) (i k : nat) :
  reached_from x (mkState (rest x) (clear_captures i k (captures x))).
Proof.
  split; [apply is_suffix_refl|]. cbn. apply length_clear_captures.
Qed.

Lemma repeatMatcher_ext
  (m : MatchState -> Continuation -> option MatchState) (i k : nat) :
  (forall x c1 c2,
      (forall y, reached_from x y -> c1 y = c2 y) -> m x c1 = m x c2) ->
  forall fuel x c1 c2,
    (forall y, reached_from x y -> c1 y = c2 y) ->
    repeatMatcher m i k fuel x c1 = repeatMatcher m i k fuel x c2.
Proof.
  intros Hm. induction fuel as [|fuel IH]; intros x c1 c2 Hc; cbn.
  - apply Hc, reached_refl.
  - rewrite (Hc x (reached_refl x)).
    erewrite Hm; [reflexivity|].
    intros y Hy. cbn [rest].
    destruct (Nat.eqb _ _); [reflexivity|].
    apply IH. intros y' Hy'. apply Hc.
    eapply reached_trans; [apply reached_clear|].
    eapply reached_trans; eassumption.
Qed.

(** A matcher sees of its continuation only what it returns on the
    states reached from the start. *)
Lemma matcher_ext (input : string) (r : regex) :
  forall i x c1 c2,
    (forall y, reached_from x y -> c1 y = c2 y) ->
    matcher input r i x c1 = matcher input r i x c2.
Proof.
  induction r as [|ch| | | |r1 IH1 r2 IH2|r1 IH1 r2 IH2|r1 IH1|r1 IH1];
    intros i x c1 c2 Hc; cbn [matcher].
  - apply Hc, reached_refl.
  - destruct (rest x) as [|a s'] eqn:E; [reflexivity|].
    destruct (Ascii.eqb a ch); [|reflexivity].
    apply Hc. split; [|reflexivity]. cbn. rewrite E. apply is_suffix_tail.
  - destruct (rest x) as [|a s'] eqn:E; [reflexivity|].
    apply Hc. split; [|reflexivity]. cbn. rewrite E. apply is_suffix_tail.
  - destruct (Nat.eqb _ _); [|reflexivity]. apply Hc, reached_refl.
  - destruct (rest x); [|reflexivity]. apply Hc, reached_refl.
  - apply IH1. intros y Hy. apply IH2. intros y' Hy'. apply Hc.
    eapply reached_trans; eassumption.
  - rewrite (IH1 i x c1 c2 Hc), (IH2 (i + groups r1) x c1 c2 Hc). reflexivity.
  - apply repeatMatcher_ext; [|assumption].
    intros x' c1' c2'. apply IH1.
  - apply IH1. intros y [Hs Hl]. apply Hc. split; [exact Hs|].
    cbn. now rewrite length_set_capture.
Qed.

(** Any fuel above the length of the rest gives the same iteration. *)
Lemma repeatMatcher_enough_fuel (input : string) (r : regex) (i k : nat) :
  forall fuel1 fuel2 x c,
    String.length (rest x) < fuel1 ->
    String.length (rest x) < fuel2 ->
    repeatMatcher (matcher input r i) i k fuel1 x c
    = repeatMatcher (matcher input r i) i k fuel2 x c.
Proof.
  induction fuel1 as [|fuel1 IH]; intros fuel2 x c H1 H2; [lia|].
  destruct fuel2 as [|fuel2]; [lia|]. cbn.
  erewrite matcher_ext; [reflexivity|].
  intros y [Hs Hl]. cbn [rest] in Hs.
  destruct (Nat.eqb_spec (String.length (rest y)) (String.length (rest x)))
    as [E|E]; [reflexivity|].
  apply is_suffix_length in Hs. apply IH; lia.
Qed.

(* ================================================================== *)
(** * Patterns without capturing groups *)

Section GroupFree.

Variable input : string.
Variables capsA capsB : list (option string).





End GroupFree.

(* ================================================================== *)
(** * The literal matcher [str] *)

Lemma take_length (s : string) : take (String.length s) s = s.
Proof. induction s as [|a s IH]; cbn; [reflexivity|now rewrite IH]. Qed.

Lemma consumed_all (s : string) : consumed s "" = s.
Proof. unfold consumed. cbn. rewrite Nat.sub_0_r. apply take_length. Qed.

Lemma groups_escapeRegExp (t : string) : groups (escapeRegExp t) = 0.
Proof. induction t as [|a t IH]; cbn; [reflexivity|exact IH]. Qed.

Lemma matcher_Seq (input : string) (r1 r2 : regex) (i : nat)
  (x : MatchState) (c : Continuation) :
  matcher input (Seq r1 r2) i x c
  = matcher input r1 i x (fun y => matcher input r2 (i + groups r1) y c).
Proof. reflexivity. Qed.

(** The escaped literal matches exactly the literal. *)
Lemma matcher_escapeRegExp (input t : string) :
  forall i s caps c,
    matcher input (escapeRegExp t) i (mkState s caps) c
    = match strip_prefix t s with
      | Some s' => c (mkState s' caps)
      | None => None
      end.
Proof.
  induction t as [|a t IH]; intros i s caps c; cbn.
  - now destruct s.
  - destruct s as [|b s]; [reflexivity|].
    destruct (Ascii.eqb b a); [apply IH|reflexivity].
Qed.

(** [[\s\S]*] first takes all the text there is: when the continuation
    accepts the end of the input, that is the match. *)
Lemma repeatMatcher_any_all (input : string) (i : nat) (c : Continuation)
  (caps : list (option string)) (z : MatchState) :
  c (mkState "" caps) = Some z ->
  forall s fuel,
    String.length s < fuel ->
    repeatMatcher (matcher input AnyChar i) i 0 fuel (mkState s caps) c = Some z.
Proof.
  intros Hc. induction s as [|a s IH]; intros fuel Hlt;
    (destruct fuel as [|fuel]; [cbn in Hlt; lia|]); cbn.
  - exact Hc.
  - destruct (Nat.eqb_spec (String.length s) (S (String.length s))) as [E|_];
      [lia|].
    rewrite IH; [reflexivity|cbn in Hlt; lia].
Qed.

(** Behind [^], a search that starts after index 0 finds nothing. *)
Lemma search_after_start (input : string) (r : regex) :
  forall from,
    String.length from < String.length input ->
    search input (Seq AssertStart r) from = None.
Proof.
  induction from as [|a from IH]; intros Hlt; cbn [search matcher rest];
    (replace (Nat.eqb _ (String.length input)) with false
      by (symmetry; apply Nat.eqb_neq; lia)).
  - reflexivity.
  - apply IH. cbn in Hlt. lia.
Qed.

(** The search of an anchored pattern is its match at index 0. *)
Lemma exec_anchored (r : regex) (input : string) :
  exec (Seq AssertStart r) input
  = match matcher input r 0
            (mkState input (List.repeat None (groups r))) Some with
    | Some y => Some (Some (consumed input (rest y)) :: captures y)
    | None => None
    end.
Proof.
  unfold exec.
  destruct input as [|a input]; cbn [search matcher rest groups Nat.add];
    rewrite Nat.eqb_refl.
  - now destruct (matcher "" r 0 _ Some).
  - destruct (matcher (String a input) r 0 _ Some); [reflexivity|].
    apply search_after_start. cbn. lia.
Qed.

(** The group that closes both matchers takes the rest of the input. *)
Lemma matcher_rest_group (input : string) (i : nat) (s : string)
  (caps : list (option string)) :
  matcher input (Seq (Group (Star AnyChar)) AssertEnd) i (mkState s caps) Some
  = Some (mkState "" (set_capture i (Some s) caps)).
Proof.
  cbn [matcher groups rest captures].
  apply (repeatMatcher_any_all input); [|lia].
  cbn [rest captures]. now rewrite consumed_all.
Qed.

Lemma strip_prefix_Some (t : string) :
  forall s s', strip_prefix t s = Some s' -> s = (t ++ s')%string.
Proof.
  induction t as [|a t IH]; intros s s' H; cbn in H.
  - now inversion H.
  - destruct s as [|b s]; [discriminate|].
    destruct (Ascii.eqb_spec b a) as [->|]; [|discriminate].
    cbn. now rewrite <- (IH _ _ H).
Qed.

Lemma strip_prefix_app (t s : string) : strip_prefix t (t ++ s) = Some s.
Proof.
  induction t as [|a t IH]; cbn; [reflexivity|].
  now rewrite Ascii.eqb_refl.
Qed.

Lemma append_inj_l (t s s' : string) :
  (t ++ s)%string = (t ++ s')%string -> s = s'.
Proof.
  induction t as [|a t IH]; cbn; intros H; [exact H|].
  inversion H. auto.
Qed.

(** What [str(literal)] returns, on a string or on [undefined]. *)
Lemma str_consume (literal : string) (fuel : nat) (s : jsstr) :
  consume (str literal) fuel s
  = match strip_prefix literal (ToString s) with
    | Some s' => Done (Success literal (Some s') None)
    | None =>
        Done (Failure
                ("Literal '" ++ literal ++ "' not matched: '"
                   ++ ToString s ++ "'")
                None)
    end.
Proof.
  unfold str. cbn [consume]. rewrite exec_anchored.
  rewrite matcher_Seq, matcher_escapeRegExp.
  destruct (strip_prefix literal (ToString s)) as [s'|]; [|reflexivity].
  rewrite matcher_rest_group.
  cbn [groups]. rewrite groups_escapeRegExp. reflexivity.
Qed.

(** X1. [str(literal)] succeeds exactly on the inputs that begin with the
    literal, without folding case or trimming; the content is the literal
    and unconsumed is the input after it; the failure message is
    "Literal 'literal' not matched: 'input'". *)
Theorem str_semantics (literal : string) (fuel : nat) (s : string) :
  (forall post,
      s = (literal ++ post)%string ->
      consume (str literal) fuel (Some s)
      = Done (Success literal (Some post) None))
  /\ ((forall post, s <> (literal ++ post)%string) ->
      consume (str literal) fuel (Some s)
      = Done (Failure
                ("Literal '" ++ literal ++ "' not matched: '" ++ s ++ "'")
                None)).
Proof.
  rewrite str_consume. cbn [ToString].
  destruct (strip_prefix literal s) as [s'|] eqn:E.
  - apply strip_prefix_Some in E. split.
    + intros post ->. apply append_inj_l in E. now subst.
    + intros H. now destruct (H s').
  - split; [|reflexivity].
    intros post ->. now rewrite strip_prefix_app in E.
Qed.

(* ================================================================== *)
(** * The pattern matcher [regexp] *)

Example regexp_star :
  consume (regexp (mkRegExp "a*" "" (Star (Char "a")))) 0 (Some "aab")
  = Done (Success (Some "aa") (Some "b") None).
Proof. reflexivity. Qed.

Example regexp_not_matched :
  consume (regexp (mkRegExp "ab" "g" (Seq (Char "a") (Char "b")))) 0 (Some "ba")
  = Done (Failure "Regexp '/ab/g' not matched: 'ba'" None).
Proof. reflexivity. Qed.

(** C1, at [regexp(/(a)b/)] and the input "abc". The matcher's result
    array is ["abc", "ab", "a", "c"]: element 2, which the code takes for
    [unconsumed], is the capture of the pattern's own group and not the
    text after the match. The success leaves "a", which is no suffix of
    "abc". *)
Theorem regexp_group_breaks_suffix (fuel : nat) :
  exec (Seq AssertStart
          (Seq (Group (pattern re_group_ab))
             (Seq (Group (Star AnyChar)) AssertEnd))) "abc"
  = Some [Some "abc"; Some "ab"; Some "a"; Some "c"]
  /\ consume (regexp re_group_ab) fuel (Some "abc")
     = Done (Success (Some "ab") (Some "a") None)
  /\ ~ is_suffix "a" "abc".
Proof.
  repeat split.
  intros [pre E].
  destruct pre as [|x [|y [|z pre]]]; cbn in E; try discriminate E.
  inversion E as [[Ex Ey Ez]]. destruct pre; discriminate.
Qed.

(** C6, at [regexp(/(a)b/)] on "abc" and [regexp(/(a)|b/)] on "bc". Both
    succeed with the matched prefix as content, but [unconsumed] is the
    capture of the pattern's first group: "a" in place of "c", and
    [undefined] in place of "c" where the group took no part. *)
Theorem regexp_unconsumed_is_first_group (fuel : nat) :
  consume (regexp re_group_ab) fuel (Some "abc")
  = Done (Success (Some "ab") (Some "a") None)
  /\ consume (regexp re_group_a_or_b) fuel (Some "bc")
     = Done (Success (Some "b") None None).
Proof. split; reflexivity. Qed.

Lemma matcher_Group (input : string) (r : regex) (i : nat)
  (x : MatchState) (c : Continuation) :
  matcher input (Group r) i x c
  = matcher input r (S i) x
      (fun y =>
         c (mkState (rest y)
              (set_capture i (Some (consumed (rest x) (rest y))) (captures y)))).
Proof. reflexivity. Qed.

(** For a pattern without a capturing group, a success of [regexp] splits
    the input into its content and its unconsumed. *)
Lemma regexp_group_free_split (exp : RegExpObject) (fuel : nat) (s : jsstr)
  (c u : jsstr) (sf : option (list FailureObject)) :
  groups (pattern exp) = 0 ->
  consume (regexp exp) fuel s = Done (Success c u sf) ->
  exists pre post : string,
    c = Some pre /\ u = Some post /\ ToString s = (pre ++ post)%string
    /\ sf = None.
Proof.
  intros Hg H. unfold regexp in H. cbn [consume] in H.
  rewrite exec_anchored in H.
  rewrite matcher_Seq, matcher_Group in H.
  match type of H with
  | context [matcher ?i ?r ?n ?x ?k] =>
      destruct (matcher i r n x k) as [z|] eqn:E
  end; [|discriminate].
  apply matcher_forward in E. destruct E as (y & Hk & [pre Hpre] & Hlen).
  rewrite matcher_rest_group in Hk. inversion Hk; subst z; clear Hk.
  cbn [rest captures groups] in *. rewrite Hg in *. cbn in Hlen.
  destruct (captures y) as [|c1 [|c2 [|c3 caps]]]; try discriminate Hlen.
  cbn in H. inversion H; subst.
  exists pre, (rest y). rewrite Hpre at 1. rewrite consumed_app. auto.
Qed.



(* ================================================================== *)
(** * The parser core *)

(** C5. [parse] calls [consume] on its input. A failure is returned as it
    is. A success that leaves the empty string gives Match with the same
    content. A success that leaves a non-empty remainder [r] gives a
    Failure whose message is "Expect EOF. But 'r' was found" and whose
    causes are the success's suppressedFailures. *)
Theorem parse_eof_boundary (T : Type) (p : Parser T) (fuel : nat)
  (input : string) :
  (forall m cs,
      consume p fuel (Some input) = Done (Failure m cs) ->
      parse p fuel (Some input) = Done (ParseFailure m cs))
  /\ (forall c sf,
      consume p fuel (Some input) = Done (Success c (Some "") sf) ->
      parse p fuel (Some input) = Done (Match c))
  /\ (forall c r sf,
      r <> "" ->
      consume p fuel (Some input) = Done (Success c (Some r) sf) ->
      parse p fuel (Some input)
      = Done (ParseFailure ("Expect EOF. But '" ++ r ++ "' was found") sf)).
Proof.
  unfold parse. repeat split; intros.
  - now rewrite H.
  - now rewrite H.
  - rewrite H0. cbn. destruct r as [|a r']; [contradiction|reflexivity].
Qed.

(** C7. [p.not(q)] runs [q] on the input first. When [q] succeeds the
    outcome is the Failure "TODO:" without causes, whatever [q] consumed;
    when [q] fails the outcome is that of [p] on the same input. *)
Theorem not_lookahead (T U : Type) (p : Parser T) (q : Parser U)
  (fuel : nat) (s : string) :
  (forall c u sf,
      consume q fuel (Some s) = Done (Success c u sf) ->
      consume (not_ p q) fuel (Some s) = Done (Failure "TODO:" None))
  /\ (forall m cs,
      consume q fuel (Some s) = Done (Failure m cs) ->
      consume (not_ p q) fuel (Some s) = consume p fuel (Some s)).
Proof.
  split; intros; cbn; now rewrite H.
Qed.

(** C8. [p.validate(f)]: a success of [p] whose content satisfies [f] is
    returned as it is, with its content, unconsumed and
    suppressedFailures; one whose content does not is replaced by the
    Failure "Validation Error" without causes; a failure of [p] is
    returned as it is. *)
Theorem validate_semantics (T : Type) (p : Parser T) (f : T -> bool)
  (fuel : nat) (s : string) :
  (forall c u sf,
      consume p fuel (Some s) = Done (Success c u sf) ->
      f c = true ->
      consume (validate p f) fuel (Some s) = Done (Success c u sf))
  /\ (forall c u sf,
      consume p fuel (Some s) = Done (Success c u sf) ->
      f c = false ->
      consume (validate p f) fuel (Some s)
      = Done (Failure "Validation Error" None))
  /\ (forall m cs,
      consume p fuel (Some s) = Done (Failure m cs) ->
      consume (validate p f) fuel (Some s) = Done (Failure m cs)).
Proof.
  repeat split; intros; cbn; rewrite H; cbn.
  - now rewrite H0.
  - now rewrite H0.
  - reflexivity.
Qed.

(** X4. [then] maps the content of a success and keeps its unconsumed; the
    outcome it builds has no suppressedFailures. A failure goes through
    as it is. *)
Theorem then_semantics (T R : Type) (p : Parser T) (action : T -> R)
  (fuel : nat) (s : jsstr) :
  (forall c u sf,
      consume p fuel s = Done (Success c u sf) ->
      consume (then_ p action) fuel s = Done (Success (action c) u None))
  /\ (forall m cs,
      consume p fuel s = Done (Failure m cs) ->
      consume (then_ p action) fuel s = Done (Failure m cs)).
Proof. split; intros; cbn; now rewrite H. Qed.

(** X5. [onParsed] and [lazy] return the outcome of the parser they wrap:
    the observer of [onParsed] changes nothing, and [lazy] calls its
    factory at every [consume]. *)
Theorem onParsed_lazy_delegate (T : Type) (p : Parser T)
  (cb : jsstr -> ParseResultInner T -> unit) (factory : unit -> Parser T)
  (fuel : nat) (s : jsstr) :
  consume (onParsed p cb) fuel s = consume p fuel s
  /\ consume (lazy factory) fuel s = consume (factory tt) fuel s.
Proof.
  split; [|reflexivity]. cbn. now destruct (consume p fuel s).
Qed.

(* ================================================================== *)
(** * [sequence] *)

Section SequenceFacts.

Context {T : Type}.
Variable fuel : nat.

Lemma matchSeq_fn_run (ps : list (Parser T)) :
  forall cur prev cs u,
    ps <> [] ->
    seq_run fuel ps cur cs u ->
    matchSeq_fn ps fuel cur prev = Done (Success (prev ++ cs) u None).
Proof.
  induction ps as [|p ps IH]; intros cur prev cs u Hne Hrun; [contradiction|].
  inversion Hrun as [|p0 ps0 cur0 c u0 sf cs0 cur0' Hp Hrest]; subst.
  cbn. rewrite Hp. cbn.
  destruct ps as [|p' ps'].
  - inversion Hrest; subst. reflexivity.
  - rewrite (IH u0 (prev ++ [c]) cs0 u); [|discriminate|assumption].
    now rewrite <- app_assoc.
Qed.

Lemma matchSeq_fn_failure (pre : list (Parser T)) :
  forall p post cur prev cs u m cz,
    seq_run fuel pre cur cs u ->
    consume p fuel u = Done (Failure m cz) ->
    matchSeq_fn (pre ++ p :: post) fuel cur prev = Done (Failure m cz).
Proof.
  induction pre as [|q pre IH]; intros p post cur prev cs u m cz Hrun Hp.
  - inversion Hrun; subst. cbn. now rewrite Hp.
  - inversion Hrun as [|p0 ps0 cur0 c u0 sf cs0 cur0' Hq Hrest]; subst.
    cbn. rewrite Hq. cbn.
    destruct (pre ++ p :: post) as [|x l] eqn:E.
    + now destruct pre.
    + rewrite <- E. eapply IH; eassumption.
Qed.

(** What an outcome of [fn] tells about the run that gave it. *)
Lemma matchSeq_fn_inv (ps : list (Parser T)) :
  forall cur prev r,
    matchSeq_fn ps fuel cur prev = Done r ->
    (exists cs u, r = Success (prev ++ cs) u None /\ seq_run fuel ps cur cs u)
    \/ (exists pre p post cs u m cz,
           ps = pre ++ p :: post /\ seq_run fuel pre cur cs u
           /\ consume p fuel u = Done (Failure m cz) /\ r = Failure m cz).
Proof.
  induction ps as [|p ps IH]; intros cur prev r H; [discriminate|].
  cbn in H.
  destruct (consume p fuel cur) as [[c u sf|m cz]| |] eqn:Hp; cbn in H;
    try discriminate.
  - destruct ps as [|p' ps'].
    + inversion H; subst. left. exists [c], u. split; [reflexivity|].
      econstructor; [eassumption|constructor].
    + destruct (IH _ _ _ H) as [(cs & u' & -> & Hrun)
                               |(pre & q & post & cs & u' & m & cz & E & Hrun & Hq & ->)].
      * left. exists (c :: cs), u'. split.
        -- now rewrite <- app_assoc.
        -- econstructor; eassumption.
      * right. exists (p :: pre), q, post, (c :: cs), u', m, cz.
        repeat split; try assumption.
        -- cbn. now rewrite E.
        -- econstructor; eassumption.
  - inversion H; subst. right.
    exists [], p, ps, [], cur, m, cz. repeat split; try assumption. constructor.
Qed.

End SequenceFacts.

(** C4. For a non-empty list of parsers, [sequence] runs them in order
    from a cursor that starts as the input, each on what the one before
    left unconsumed, and appends each content to the accumulator. If all
    succeed the outcome is Success with the contents in order and the
    final cursor; the first failure is returned as it is, with its message
    and causes, whatever parsers follow it. An outcome of [sequence]
    arises in one of these two ways. *)
Theorem sequence_semantics (T : Type) (ps : list (Parser T)) (fuel : nat)
  (s : string) (Hne : ps <> []) :
  (forall cs u,
      seq_run fuel ps (Some s) cs u ->
      consume (sequence ps) fuel (Some s) = Done (Success cs u None))
  /\ (forall pre p post cs u m cz,
      ps = pre ++ p :: post ->
      seq_run fuel pre (Some s) cs u ->
      consume p fuel u = Done (Failure m cz) ->
      consume (sequence ps) fuel (Some s) = Done (Failure m cz))
  /\ (forall r,
      consume (sequence ps) fuel (Some s) = Done r ->
      (exists cs u, r = Success cs u None /\ seq_run fuel ps (Some s) cs u)
      \/ (exists pre p post cs u m cz,
             ps = pre ++ p :: post /\ seq_run fuel pre (Some s) cs u
             /\ consume p fuel u = Done (Failure m cz) /\ r = Failure m cz)).
Proof.
  repeat split.
  - intros cs u Hrun. cbn. unfold _matchSeq.
    now rewrite (@matchSeq_fn_run _ fuel ps (Some s) [] cs u Hne Hrun).
  - intros pre p post cs u m cz -> Hrun Hp. cbn. unfold _matchSeq.
    eapply matchSeq_fn_failure; eassumption.
  - intros r H. cbn in H. unfold _matchSeq in H.
    apply matchSeq_fn_inv in H. exact H.
Qed.

Lemma sequence_semantics_witness :
  consume (sequence [str "a"; str "b"]) 0 (Some "ab")
  = Done (Success ["a"; "b"] (Some "") None)
  /\ consume (sequence [str "a"; str "b"; str "c"]) 0 (Some "ax")
     = Done (Failure "Literal 'b' not matched: 'x'" None).
Proof.
  split.
  - apply (proj1 (sequence_semantics (ps := [str "a"; str "b"]) 0 "ab"
                    ltac:(discriminate))).
    eapply seq_run_cons; [reflexivity|].
    eapply seq_run_cons; [reflexivity|].
    apply seq_run_nil.
  - apply (proj1 (proj2 (sequence_semantics
                           (ps := [str "a"; str "b"; str "c"]) 0 "ax"
                           ltac:(discriminate)))
             [str "a"] (str "b") [str "c"] ["a"] (Some "x")).
    + reflexivity.
    + eapply seq_run_cons; [reflexivity|]. apply seq_run_nil.
    + reflexivity.
Defined.

(** C10. [sequence()] of no parser at all: [consume] returns no outcome on
    any input, the call ends in the [TypeError] of [parser.consume] on the
    [undefined] element [parsers[0]]. So an outcome of [sequence] is
    returned only for a non-empty list of parsers. *)
Theorem sequence_empty_type_error (T : Type) (fuel : nat) (s : string) :
  consume (sequence (@nil (Parser T))) fuel (Some s) = TypeError
  /\ (forall (ps : list (Parser T)) r,
         consume (sequence ps) fuel (Some s) = Done r -> ps <> []).
Proof.
  split; [reflexivity|].
  intros ps r H ->. discriminate H.
Qed.

(* ================================================================== *)
(** * [choice] *)

Section ChoiceFacts.

Context {T : Type}.
Variable fuel : nat.
Variable s : jsstr.

Lemma extend_cons (failures : option (list FailureObject)) f fs :
  extend (match failures with
          | Some l => Some (l ++ [f])
          | None => Some [f]
          end) fs
  = extend failures (f :: fs).
Proof.
  destruct failures as [l|], fs as [|g fs]; cbn; try reflexivity.
  now rewrite <- app_assoc.
Qed.

Lemma extend_none (fs : list FailureObject) : extend None fs = collected fs.
Proof. now destruct fs. Qed.

Lemma choice_fn_success (pre : list (Parser T)) :
  forall fs p post failures c u sf,
    Forall2 (fails_with fuel s) pre fs ->
    consume p fuel s = Done (Success c u sf) ->
    choice_fn (pre ++ p :: post) fuel s failures
    = Done (Success c u (extend failures fs)).
Proof.
  induction pre as [|q pre IH]; intros fs p post failures c u sf Hpre Hp;
    inversion Hpre as [|q0 f pre0 fs' Hq Hrest]; subst; cbn.
  - now rewrite Hp.
  - unfold fails_with in Hq. rewrite Hq. cbn.
    rewrite (IH fs' p post _ c u sf Hrest Hp).
    destruct f as [m cz]. cbn. now rewrite extend_cons.
Qed.

Lemma choice_fn_no_match (ps : list (Parser T)) :
  forall fs failures,
    Forall2 (fails_with fuel s) ps fs ->
    choice_fn ps fuel s failures
    = Done (Failure "No Matches" (extend failures fs)).
Proof.
  induction ps as [|q ps IH]; intros fs failures Hps;
    inversion Hps as [|q0 f ps0 fs' Hq Hrest]; subst; cbn.
  - reflexivity.
  - unfold fails_with in Hq. rewrite Hq. cbn.
    rewrite (IH fs' _ Hrest).
    destruct f as [m cz]. cbn. now rewrite extend_cons.
Qed.

Lemma choice_fn_inv (ps : list (Parser T)) :
  forall failures r,
    choice_fn ps fuel s failures = Done r ->
    (exists pre p post fs c u sf,
        ps = pre ++ p :: post /\ Forall2 (fails_with fuel s) pre fs
        /\ consume p fuel s = Done (Success c u sf)
        /\ r = Success c u (extend failures fs))
    \/ (exists fs,
           Forall2 (fails_with fuel s) ps fs
           /\ r = Failure "No Matches" (extend failures fs)).
Proof.
  induction ps as [|p ps IH]; intros failures r H; cbn in H.
  - inversion H; subst. right. exists []. split; [constructor|reflexivity].
  - destruct (consume p fuel s) as [[c u sf|m cz]| |] eqn:Hp; cbn in H;
      try discriminate.
    + inversion H; subst. left.
      exists [], p, ps, [], c, u, sf. repeat split; [constructor|assumption].
    + destruct (IH _ _ H)
        as [(pre & q & post & fs & c & u & sf & E & Hpre & Hq & ->)
           |(fs & Hall & ->)].
      * left. exists (p :: pre), q, post, (mkFailure m cz :: fs), c, u, sf.
        repeat split; try assumption.
        -- cbn. now rewrite E.
        -- constructor; assumption.
        -- now rewrite extend_cons.
      * right. exists (mkFailure m cz :: fs). split.
        -- constructor; assumption.
        -- now rewrite extend_cons.
Qed.

End ChoiceFacts.

(** C3. For a non-empty list of parsers, [choice] tries the alternatives
    in the order listed, every one of them on the same input [s]. The
    first that succeeds gives the content and unconsumed of the outcome,
    and the failures of the alternatives before it, in the order tried,
    are its suppressedFailures (the field is absent when there is none).
    If every alternative fails the outcome is the Failure "No Matches"
    whose causes are the message and causes of each failure, in the order
    tried. An outcome of [choice] arises in one of these two ways. *)
Theorem choice_semantics (T : Type) (ps : list (Parser T)) (fuel : nat)
  (s : string) (Hne : ps <> []) :
  (forall pre p post fs c u sf,
      ps = pre ++ p :: post ->
      Forall2 (fails_with fuel (Some s)) pre fs ->
      consume p fuel (Some s) = Done (Success c u sf) ->
      consume (choice ps) fuel (Some s) = Done (Success c u (collected fs)))
  /\ (forall fs,
      Forall2 (fails_with fuel (Some s)) ps fs ->
      consume (choice ps) fuel (Some s) = Done (Failure "No Matches" (Some fs)))
  /\ (forall r,
      consume (choice ps) fuel (Some s) = Done r ->
      (exists pre p post fs c u sf,
          ps = pre ++ p :: post
          /\ Forall2 (fails_with fuel (Some s)) pre fs
          /\ consume p fuel (Some s) = Done (Success c u sf)
          /\ r = Success c u (collected fs))
      \/ (exists fs,
             Forall2 (fails_with fuel (Some s)) ps fs
             /\ r = Failure "No Matches" (Some fs))).
Proof.
  repeat split.
  - intros pre p post fs c u sf -> Hpre Hp. cbn.
    rewrite (@choice_fn_success _ fuel (Some s) pre fs p post None c u sf Hpre Hp).
    now rewrite extend_none.
  - intros fs Hall. cbn.
    rewrite (@choice_fn_no_match _ fuel (Some s) ps fs None Hall).
    destruct fs as [|f fs]; [|reflexivity].
    inversion Hall; subst. contradiction.
  - intros r H. cbn in H. apply choice_fn_inv in H.
    destruct H as [(pre & p & post & fs & c & u & sf & E & Hpre & Hp & ->)
                  |(fs & Hall & ->)].
    + left. exists pre, p, post, fs, c, u, sf. rewrite extend_none. auto.
    + right. exists fs. split; [assumption|].
      destruct fs as [|f fs]; [|reflexivity].
      inversion Hall; subst. contradiction.
Qed.

Lemma choice_semantics_witness :
  consume (choice [str "a"; str "b"]) 0 (Some "b")
  = Done (Success "b" (Some "")
            (Some [mkFailure "Literal 'a' not matched: 'b'" None]))
  /\ consume (choice [str "a"; str "b"]) 0 (Some "c")
     = Done (Failure "No Matches"
               (Some [mkFailure "Literal 'a' not matched: 'c'" None;
                      mkFailure "Literal 'b' not matched: 'c'" None])).
Proof.
  split.
  - apply (proj1 (choice_semantics (ps := [str "a"; str "b"]) 0 "b"
                    ltac:(discriminate))
             [str "a"] (str "b") []
             [mkFailure "Literal 'a' not matched: 'b'" None] "b" (Some "") None).
    + reflexivity.
    + constructor; [reflexivity|constructor].
    + reflexivity.
  - apply (proj1 (proj2 (choice_semantics (ps := [str "a"; str "b"]) 0 "c"
                           ltac:(discriminate)))).
    constructor; [reflexivity|].
    constructor; [reflexivity|constructor].
Defined.

(* ================================================================== *)
(** * [repeat] *)

Section RepeatFacts.

Context {T : Type}.
Variable parser : Parser T.
Variable fuel : nat.
Variable str0 : jsstr.

(** The outcome of [fn] is a Success that extends the accumulator, and
    what it appends does not depend on the accumulator. *)
Lemma repeat_fn_acc (calls : nat) :
  forall cur acc r,
    repeat_fn parser fuel str0 calls cur acc = Done r ->
    exists l u,
      r = Success (acc ++ l) u None
      /\ forall acc',
           repeat_fn parser fuel str0 calls cur acc'
           = Done (Success (acc' ++ l) u None).
Proof.
  induction calls as [|calls IH]; intros cur acc r H; cbn in H;
    [discriminate|].
  destruct (consume parser fuel cur) as [[c u sf|m cz]| |] eqn:Hp; cbn in H;
    try discriminate.
  - destruct (is_empty_string u) eqn:Hu; cbn in H.
    + inversion H; subst. exists [c], u. split; [reflexivity|].
      intros acc'. cbn. rewrite Hp. cbn. now rewrite Hu.
    + destruct (IH _ _ _ H) as (l & u' & -> & Hall).
      exists (c :: l), u'. split.
      * now rewrite <- app_assoc.
      * intros acc'. cbn. rewrite Hp. cbn. rewrite Hu. cbn.
        rewrite Hall. now rewrite <- app_assoc.
  - inversion H; subst. exists [], cur. split.
    + now rewrite app_nil_r.
    + intros acc'. cbn. rewrite Hp. cbn. now rewrite app_nil_r.
Qed.

Lemma repeat_fn_more_calls (calls : nat) :
  forall calls' cur acc r,
    calls <= calls' ->
    repeat_fn parser fuel str0 calls cur acc = Done r ->
    repeat_fn parser fuel str0 calls' cur acc = Done r.
Proof.
  induction calls as [|calls IH]; intros calls' cur acc r Hle H; cbn in H;
    [discriminate|].
  destruct calls' as [|calls']; [lia|]. cbn.
  destruct (consume parser fuel cur) as [[c u sf|m cz]| |]; cbn in *;
    try discriminate; [|assumption].
  destruct (is_empty_string u); cbn in *; [assumption|].
  apply IH; [lia|assumption].
Qed.

(** A run of [fn] either is the accumulation of the specification, or at
    some point took the default for a cursor that was [undefined] and
    started again from the input with a longer accumulator. *)
Lemma repeat_fn_run_or_restart (calls : nat) :
  forall cur acc r,
    repeat_fn parser fuel str0 calls cur acc = Done r ->
    (exists l u,
        r = Success (acc ++ l) u None
        /\ repeat_run (consume parser fuel) cur l u)
    \/ (exists calls' acc',
           calls' < calls /\ length acc < length acc'
           /\ repeat_fn parser fuel str0 calls' str0 acc' = Done r).
Proof.
  induction calls as [|calls IH]; intros cur acc r H; cbn in H;
    [discriminate|].
  destruct (consume parser fuel cur) as [[c u sf|m cz]| |] eqn:Hp; cbn in H;
    try discriminate.
  - destruct u as [u|].
    + destruct u as [|a u]; cbn in H.
      * inversion H; subst. left. exists [c], (Some ""). split; [reflexivity|].
        eapply repeat_stop_empty; eassumption.
      * destruct (IH _ _ _ H) as [(l & u' & -> & Hrun)
                                 |(calls' & acc' & Hlt & Hlen & Hre)].
        -- left. exists (c :: l), u'. split.
           ++ now rewrite <- app_assoc.
           ++ eapply repeat_step; [eassumption|discriminate|assumption].
        -- right. exists calls', acc'. rewrite length_app in Hlen. cbn in Hlen.
           repeat split; [lia|lia|assumption].
    + cbn in H. right. exists calls, (acc ++ [c]).
      rewrite length_app. cbn. repeat split; [lia|lia|assumption].
  - inversion H; subst. left. exists [], cur. split.
    + now rewrite app_nil_r.
    + eapply repeat_stop_failure; eassumption.
Qed.

(** A run that starts again from the input does not return: started from
    the input, a run that returns is the accumulation of the
    specification. *)
Lemma repeat_fn_from_input (calls : nat) (acc : list T) r :
  repeat_fn parser fuel str0 calls str0 acc = Done r ->
  exists l u,
    r = Success (acc ++ l) u None
    /\ repeat_run (consume parser fuel) str0 l u.
Proof.
  intros H.
  destruct (repeat_fn_run_or_restart _ _ _ H)
    as [Hrun|(calls' & acc' & Hlt & Hlen & Hre)]; [exact Hrun|].
  exfalso.
  destruct (repeat_fn_acc _ _ _ H) as (l & u & -> & Hall).
  apply (repeat_fn_more_calls (calls' := calls)) in Hre; [|lia].
  rewrite Hall in Hre. inversion Hre as [E].
  apply (f_equal (@length T)) in E. rewrite !length_app in E. lia.
Qed.

End RepeatFacts.

(** The accumulation from a cursor is unique. *)
Lemma repeat_run_functional (T : Type) (q : jsstr -> Run (ParseResultInner T))
  (cur : jsstr) (cs : list T) (u : jsstr) :
  repeat_run q cur cs u ->
  forall cs' u', repeat_run q cur cs' u' -> cs' = cs /\ u' = u.
Proof.
  induction 1 as [cur m cz Hq|cur c sf Hq|cur c u sf cs cur' Hq Hne Hrun IH];
    intros cs' u' H';
    inversion H' as [cur0 m0 cz0 Hq0|cur0 c0 sf0 Hq0
                    |cur0 c0 u0 sf0 cs0 cur0' Hq0 Hne0 Hrun0];
    subst; rewrite Hq in Hq0; try discriminate Hq0;
    inversion Hq0; subst.
  - now split.
  - now split.
  - contradiction.
  - contradiction.
  - destruct (IH _ _ Hrun0) as [-> ->]. now split.
Qed.

(** What [repeat] returns on any cursor value is the accumulation from it. *)
Lemma repeat_returns_run (T : Type) (p : Parser T) (fuel : nat)
  (s : jsstr) (r : ParseResultInner (list T)) :
  consume (repeat p) fuel s = Done r ->
  exists cs u, r = Success cs u None /\ repeat_run (consume p fuel) s cs u.
Proof.
  intros H. cbn in H. apply repeat_fn_from_input in H.
  destruct H as (l & u & -> & Hrun). now exists l, u.
Qed.

(** C9. Whenever [repeat(p).consume(s)] returns, its outcome is a Success
    without suppressedFailures whose content and unconsumed are those of
    the accumulation from [s], which is unique: [p] is consumed against a
    cursor that starts as [s], each success appends its content and moves
    the cursor to its unconsumed, and the run stops when [p] fails on the
    cursor (the failure is dropped) or when the cursor has become the
    empty string. *)
Theorem repeat_greedy_accumulation (T : Type) (p : Parser T) (fuel : nat)
  (s : string) (r : ParseResultInner (list T))
  (Hreturns : consume (repeat p) fuel (Some s) = Done r) :
  exists cs u,
    r = Success cs u None
    /\ repeat_run (consume p fuel) (Some s) cs u
    /\ forall cs' u',
         repeat_run (consume p fuel) (Some s) cs' u' -> cs' = cs /\ u' = u.
Proof.
  destruct (repeat_returns_run _ _ _ Hreturns)
    as (l & u & -> & Hrun).
  exists l, u.
  repeat split; try assumption;
    now destruct (repeat_run_functional Hrun H).
Qed.

Lemma repeat_greedy_accumulation_witness :
  exists cs u,
    Success ["a"; "a"] (Some "b") None = Success cs u None
    /\ repeat_run (consume (str "a") 3) (Some "aab") cs u
    /\ forall cs' u',
         repeat_run (consume (str "a") 3) (Some "aab") cs' u' ->
         cs' = cs /\ u' = u.
Proof.
  apply (@repeat_greedy_accumulation _ (str "a") 3 "aab").
  reflexivity.
Defined.

(** On the empty input the parser is consumed once all the same. *)
Example repeat_on_empty_input :
  consume (repeat (str "")) 1 (Some "") = Done (Success [""] (Some "") None)
  /\ consume (repeat (str "a")) 1 (Some "") = Done (Success [] (Some "") None).
Proof. split; reflexivity. Qed.

(* ================================================================== *)
(** * Termination of [repeat] *)

Lemma strip_prefix_length (t : string) :
  forall s s',
    strip_prefix t s = Some s' ->
    String.length s = String.length t + String.length s'.
Proof.
  induction t as [|a t IH]; intros s s' H; cbn in H.
  - now inversion H.
  - destruct s as [|b s]; [discriminate|].
    destruct (Ascii.eqb b a); [|discriminate].
    cbn. now rewrite (IH _ _ H).
Qed.

Lemma str_fuel_monotone (literal : string) : fuel_monotone (str literal).
Proof. intros n m c r _. now rewrite !str_consume. Qed.

Lemma str_returns_on_strings (literal : string) :
  returns_on_strings (str literal).
Proof.
  intros c. exists 0. rewrite str_consume.
  destruct (strip_prefix literal (ToString (Some c))); eauto.
Qed.

Lemma str_makes_progress (a : ascii) (literal : string) :
  makes_progress (str (String a literal)).
Proof.
  intros n c x u sf H. rewrite str_consume in H. cbn [ToString] in H.
  destruct (strip_prefix (String a literal) c) as [s'|] eqn:E;
    [|discriminate].
  inversion H; subst. exists s'. split; [reflexivity|right].
  apply strip_prefix_length in E. cbn in E. lia.
Qed.

(** [repeat(str(""))] on a non-empty input: the empty literal matches
    without consuming, and [fn] calls itself on the same cursor for ever. *)
Lemma repeat_fn_empty_literal (fuel : nat) (calls : nat) :
  forall acc,
    repeat_fn (str "") fuel (Some "a") calls (Some "a") acc = OutOfFuel.
Proof.
  induction calls as [|calls IH]; intros acc; [reflexivity|].
  cbn [repeat_fn]. rewrite str_consume. cbn. apply IH.
Qed.

Lemma repeat_fn_returns (T : Type) (p : Parser T) (str0 : jsstr) :
  fuel_monotone p -> returns_on_strings p -> makes_progress p ->
  forall (len : nat) (c : string),
    String.length c <= len ->
    exists N,
      forall n calls acc,
        N <= n -> len < calls ->
        exists cs u,
          repeat_fn p n str0 calls (Some c) acc = Done (Success cs u None).
Proof.
  unfold fuel_monotone, returns_on_strings, makes_progress.
  intros Hmono Hret Hprog.
  assert (Hstop : forall c n0 n calls acc x sf,
             n0 <= n ->
             consume p n0 (Some c) = Done (Success x (Some "") sf) ->
             exists cs u,
               repeat_fn p n str0 (S calls) (Some c) acc
               = Done (Success cs u None)).
  { intros c n0 n calls acc x sf Hn Hc. cbn.
    rewrite (Hmono n0 n (Some c) _ Hn Hc). cbn. eauto. }
  assert (Hfail : forall c n0 n calls acc m cz,
             n0 <= n ->
             consume p n0 (Some c) = Done (Failure m cz) ->
             exists cs u,
               repeat_fn p n str0 (S calls) (Some c) acc
               = Done (Success cs u None)).
  { intros c n0 n calls acc m cz Hn Hc. cbn.
    rewrite (Hmono n0 n (Some c) _ Hn Hc). cbn. eauto. }
  induction len as [|len IH]; intros c Hlen;
    destruct (Hret c) as (n0 & [x u sf|m cz] & Hc).
  - destruct (Hprog n0 c x u sf Hc) as (u' & -> & [->|Hlt]); [|lia].
    exists n0. intros n calls acc Hn Hcalls.
    destruct calls as [|calls]; [lia|]. eapply Hstop; eassumption.
  - exists n0. intros n calls acc Hn Hcalls.
    destruct calls as [|calls]; [lia|]. eapply Hfail; eassumption.
  - destruct (Hprog n0 c x u sf Hc) as (u' & -> & [->|Hlt]).
    + exists n0. intros n calls acc Hn Hcalls.
      destruct calls as [|calls]; [lia|]. eapply Hstop; eassumption.
    + destruct (IH u' ltac:(lia)) as (N & HN).
      exists (Nat.max n0 N). intros n calls acc Hn Hcalls.
      destruct calls as [|calls]; [lia|].
      destruct u' as [|b u'];
        [eapply Hstop with (n0 := n0); [lia|eassumption]|].
      cbn. rewrite (Hmono n0 n (Some c) _ ltac:(lia) Hc). cbn.
      apply HN; lia.
  - exists n0. intros n calls acc Hn Hcalls.
    destruct calls as [|calls]; [lia|]. eapply Hfail; eassumption.
Qed.

Lemma str_returns_on_every_string (literal : string) :
  returns_on_every_string (str literal).
Proof.
  intros c. exists 0.
  destruct (strip_prefix literal c) as [s'|] eqn:E;
    eexists; intros m _; rewrite str_consume; cbn [ToString]; rewrite E;
    reflexivity.
Qed.

Lemma repeat_fn_returns_progress (T : Type) (p : Parser T) (str0 : jsstr) :
  returns_on_every_string p -> makes_progress p ->
  forall (len : nat) (c : string),
    String.length c <= len ->
    exists N,
      forall n calls acc,
        N <= n -> len < calls ->
        exists cs u,
          repeat_fn p n str0 calls (Some c) acc = Done (Success cs u None).
Proof.
  unfold returns_on_every_string, makes_progress.
  intros Hret Hprog.
  induction len as [|len IH]; intros c Hlen;
    destruct (Hret c) as (n0 & [x u sf|m cz] & Hc).
  - destruct (Hprog n0 c x u sf (Hc n0 (le_n _))) as (u' & -> & [->|Hlt]);
      [|lia].
    exists n0. intros n calls acc Hn Hcalls.
    destruct calls as [|calls]; [lia|]. cbn. rewrite (Hc n Hn). cbn. eauto.
  - exists n0. intros n calls acc Hn Hcalls.
    destruct calls as [|calls]; [lia|]. cbn. rewrite (Hc n Hn). cbn. eauto.
  - destruct (Hprog n0 c x u sf (Hc n0 (le_n _))) as (u' & -> & [->|Hlt]).
    + exists n0. intros n calls acc Hn Hcalls.
      destruct calls as [|calls]; [lia|]. cbn. rewrite (Hc n Hn). cbn. eauto.
    + destruct (IH u' ltac:(lia)) as (N & HN).
      exists (Nat.max n0 N). intros n calls acc Hn Hcalls.
      destruct calls as [|calls]; [lia|]. cbn.
      rewrite (Hc n ltac:(lia)). cbn.
      destruct u' as [|b u']; cbn; [eauto|].
      apply HN; lia.
  - exists n0. intros n calls acc Hn Hcalls.
    destruct calls as [|calls]; [lia|]. cbn. rewrite (Hc n Hn). cbn. eauto.
Qed.

(** C2, as the code has it. For every parser [p] and string [s],
    [repeat(p).consume(s)] never returns a Failure: an outcome it returns
    is a Success. And it does return one when [p] returns an outcome on
    every string and every success of [p] leaves unconsumed the empty
    string or a string shorter than its input. *)
Theorem repeat_never_fails (T : Type) (p : Parser T) (s : string) :
  (forall fuel r,
      consume (repeat p) fuel (Some s) = Done r ->
      exists cs u, r = Success cs u None)
  /\ (returns_on_every_string p ->
      makes_progress p ->
      exists fuel cs u,
        consume (repeat p) fuel (Some s) = Done (Success cs u None)).
Proof.
  split.
  - intros fuel r H. cbn in H.
    destruct (repeat_fn_acc _ _ _ _ _ _ H) as (l & u & -> & _). eauto.
  - intros Hret Hprog.
    destruct (@repeat_fn_returns_progress T p (Some s) Hret Hprog
                (String.length s) s (le_n _)) as (N & HN).
    exists (Nat.max N (S (String.length s))).
    cbn. apply HN; lia.
Qed.

Lemma repeat_never_fails_witness :
  (forall fuel r,
      consume (repeat (str "a")) fuel (Some "aab") = Done r ->
      exists cs u, r = Success cs u None)
  /\ (exists fuel cs u,
         consume (repeat (str "a")) fuel (Some "aab")
         = Done (Success cs u None)).
Proof.
  split.
  - exact (proj1 (@repeat_never_fails _ (str "a") "aab")).
  - apply (proj2 (@repeat_never_fails _ (str "a") "aab")).
    + apply str_returns_on_every_string.
    + apply str_makes_progress.
Defined.

(** The outcome is a Success also where [p] makes no progress on other
    inputs: [regexp(/a*/)] matches the empty text of "b". *)
Example repeat_star_returns_success :
  consume (repeat (regexp (mkRegExp "a*" "" (Star (Char "a"))))) 1 (Some "aaa")
  = Done (Success [Some "aaa"] (Some "") None).
Proof. reflexivity. Qed.

(** C2, as the specification states it, fails: [repeat(str(""))] returns
    no outcome on the input "a". *)
Lemma repeat_does_not_always_return :
  ~ (forall (p : Parser string) (s : string),
        exists fuel cs u sf,
          consume (repeat p) fuel (Some s) = Done (Success cs u sf)).
Proof.
  intros H. destruct (H (str "") "a") as (fuel & cs & u & sf & E).
  cbn [repeat consume] in E. rewrite repeat_fn_empty_literal in E.
  discriminate E.
Qed.

(* ================================================================== *)
(** * The suffix invariant *)

Lemma strip_prefix_suffix (t : string) :
  forall s s', strip_prefix t s = Some s' -> is_suffix s' s.
Proof.
  induction t as [|a t IH]; intros s s' H; cbn in H.
  - inversion H. apply is_suffix_refl.
  - destruct s as [|b s]; [discriminate|].
    destruct (Ascii.eqb b a); [|discriminate].
    eapply is_suffix_trans; [eapply IH; eassumption|apply is_suffix_tail].
Qed.

Lemma suffix_invariant_str (literal : string) : suffix_invariant (str literal).
Proof.
  intros fuel s c u sf H. rewrite str_consume in H. cbn [ToString] in H.
  destruct (strip_prefix literal s) as [s'|] eqn:E; [|discriminate].
  inversion H; subst. exists s'. split; [reflexivity|].
  eapply strip_prefix_suffix; eassumption.
Qed.

Lemma suffix_invariant_regexp (exp : RegExpObject) :
  groups (pattern exp) = 0 -> suffix_invariant (regexp exp).
Proof.
  intros Hg fuel s c u sf H.
  destruct (regexp_group_free_split _ _ _ Hg H) as (pre & post & _ & -> & E & _).
  exists post. split; [reflexivity|]. cbn in E. now exists pre.
Qed.

Lemma seq_run_suffix (T : Type) (fuel : nat) (ps : list (Parser T)) :
  (forall p, In p ps -> suffix_invariant p) ->
  forall (cur : string) cs u,
    seq_run fuel ps (Some cur) cs u ->
    exists u' : string, u = Some u' /\ is_suffix u' cur.
Proof.
  induction ps as [|p ps IH]; intros Hps cur cs u Hrun;
    inversion Hrun as [|p0 ps0 cur0 c0 u0 sf0 cs0 cur0' Hp Hrest]; subst.
  - exists cur. split; [reflexivity|apply is_suffix_refl].
  - destruct (Hps p (or_introl eq_refl) _ _ _ _ _ Hp) as (v & -> & Hv).
    destruct (IH (fun q Hq => Hps q (or_intror Hq)) _ _ _ Hrest)
      as (w & -> & Hw).
    exists w. split; [reflexivity|].
    eapply is_suffix_trans; eassumption.
Qed.

Lemma suffix_invariant_sequence (T : Type) (ps : list (Parser T)) :
  (forall p, In p ps -> suffix_invariant p) ->
  suffix_invariant (sequence ps).
Proof.
  intros Hps fuel s c u sf H. cbn in H. unfold _matchSeq in H.
  apply matchSeq_fn_inv in H.
  destruct H as [(cs & u' & E & Hrun)|(? & ? & ? & ? & ? & ? & ? & _ & _ & _ & E)];
    [|discriminate E].
  inversion E; subst.
  eapply seq_run_suffix; eassumption.
Qed.

Lemma suffix_invariant_choice (T : Type) (ps : list (Parser T)) :
  (forall p, In p ps -> suffix_invariant p) ->
  suffix_invariant (choice ps).
Proof.
  intros Hps fuel s c u sf H. cbn in H. apply choice_fn_inv in H.
  destruct H as [(pre & p & post & fs & c' & u' & sf' & -> & _ & Hp & E)
                |(fs & _ & E)]; [|discriminate E].
  inversion E; subst.
  eapply Hps; [|eassumption]. apply in_or_app. right. now left.
Qed.

Lemma repeat_run_suffix (T : Type) (p : Parser T) (fuel : nat) :
  suffix_invariant p ->
  forall cur cs u,
    repeat_run (consume p fuel) cur cs u ->
    forall cur' : string,
      cur = Some cur' ->
      exists u' : string, u = Some u' /\ is_suffix u' cur'.
Proof.
  intros Hp cur cs u Hrun.
  induction Hrun as [cur m cz Hq|cur c sf Hq|cur c u sf cs cur1 Hq Hne Hrun IH];
    intros cur' ->.
  - exists cur'. split; [reflexivity|apply is_suffix_refl].
  - destruct (Hp _ _ _ _ _ Hq) as (v & E & Hv). now exists v.
  - destruct (Hp _ _ _ _ _ Hq) as (v & -> & Hv).
    destruct (IH v eq_refl) as (w & -> & Hw).
    exists w. split; [reflexivity|].
    eapply is_suffix_trans; eassumption.
Qed.

Lemma suffix_invariant_repeat (T : Type) (p : Parser T) :
  suffix_invariant p -> suffix_invariant (repeat p).
Proof.
  intros Hp fuel s c u sf H.
  destruct (repeat_returns_run p fuel (Some s) H)
    as (cs & u' & E & Hrun).
  inversion E; subst.
  eapply repeat_run_suffix; [eassumption|eassumption|reflexivity].
Qed.

Lemma suffix_invariant_core (T R U : Type) (p : Parser T)
  (action : T -> R) (predicate : T -> bool)
  (cb : jsstr -> ParseResultInner T -> unit) (q : Parser U)
  (factory : unit -> Parser T) :
  suffix_invariant p ->
  suffix_invariant (then_ p action)
  /\ suffix_invariant (validate p predicate)
  /\ suffix_invariant (onParsed p cb)
  /\ suffix_invariant (not_ p q)
  /\ (suffix_invariant (factory tt) -> suffix_invariant (lazy factory)).
Proof.
  intros Hp.
  split; [|split; [|split; [|split]]]; [| | | |intros Hf];
    intros fuel s c u sf H; cbn in H.
  - destruct (consume p fuel (Some s)) as [[c' u' sf'|m cz]| |] eqn:E;
      cbn in H; try discriminate.
    inversion H; subst. eapply Hp; eassumption.
  - destruct (consume p fuel (Some s)) as [[c' u' sf'|m cz]| |] eqn:E;
      cbn in H; try discriminate.
    destruct (predicate c'); [|discriminate].
    inversion H; subst. eapply Hp; eassumption.
  - destruct (consume p fuel (Some s)) as [r| |] eqn:E; cbn in H;
      try discriminate.
    inversion H; subst. eapply Hp; eassumption.
  - destruct (consume q fuel (Some s)) as [[c' u' sf'|m cz]| |] eqn:E;
      cbn in H; try discriminate.
    eapply Hp; eassumption.
  - eapply Hf; eassumption.
Qed.

(** X3. The suffix invariant holds of every parser built in finitely many
    steps with the public constructors, as long as no pattern given to
    [regexp] has a capturing group of its own. [lazy] is covered over a
    factory whose parser is so built; a grammar that refers to itself
    through [lazy] is not covered. *)
Theorem suffix_invariant_no_group (T : Type) (p : Parser T) :
  built no_group p -> suffix_invariant p.
Proof.
  induction 1 as [literal|exp Hg|T ps _ IH|T ps _ IH|T p _ IH
                 |T factory _ IH|T R p action _ IH|T p predicate _ IH
                 |T p cb _ IH|T U p q _ IH _ _].
  - apply suffix_invariant_str.
  - now apply suffix_invariant_regexp.
  - now apply suffix_invariant_sequence.
  - now apply suffix_invariant_choice.
  - now apply suffix_invariant_repeat.
  - now apply (suffix_invariant_core (fun x => x) (fun _ => true)
                 (fun _ _ => tt) (factory tt) factory IH).
  - now apply (suffix_invariant_core action (fun _ => true)
                 (fun _ _ => tt) p (fun _ => p) IH).
  - now apply (suffix_invariant_core (fun x => x) predicate
                 (fun _ _ => tt) p (fun _ => p) IH).
  - now apply (suffix_invariant_core (fun x => x) (fun _ => true)
                 cb p (fun _ => p) IH).
  - now apply (suffix_invariant_core (fun x => x) (fun _ => true)
                 (fun _ _ => tt) q (fun _ => p) IH).
Qed.

Lemma suffix_invariant_no_group_witness :
  suffix_invariant
    (sequence
       [then_ (str "(") (fun x : string => Some x);
        lazy (fun _ =>
                validate
                  (not_ (regexp (mkRegExp "a*b" ""
                                   (Seq (Star (Char "a")) (Char "b"))))
                     (str "c"))
                  (fun _ => true));
        then_ (str ")") (fun x : string => Some x)]).
Proof.
  apply suffix_invariant_no_group.
  apply built_sequence. intros p [<-|[<-|[<-|[]]]].
  - apply built_then, built_str.
  - apply built_lazy, built_validate, built_not.
    + apply built_regexp. reflexivity.
    + apply built_str.
  - apply built_then, built_str.
Defined.

(* ================================================================== *)
(** * More fuel changes no outcome *)

Lemma bind_Done (A B : Type) (m : Run A) (k : A -> Run B) (b : B) :
  bind m k = Done b -> exists a, m = Done a /\ k a = Done b.
Proof. destruct m as [a| |]; cbn; intros H; try discriminate. eauto. Qed.

Lemma fuel_monotone_matchSeq_fn (T : Type) (ps : list (Parser T)) :
  (forall p, In p ps -> fuel_monotone p) ->
  forall n m cur prev r,
    n <= m ->
    matchSeq_fn ps n cur prev = Done r ->
    matchSeq_fn ps m cur prev = Done r.
Proof.
  induction ps as [|p ps IH]; intros Hps n m cur prev r Hle H; cbn in *;
    [discriminate|].
  apply bind_Done in H. destruct H as (res & Hp & H).
  rewrite (Hps p (or_introl eq_refl) n m cur res Hle Hp). cbn.
  destruct res as [c u sf|msg cs]; [|assumption].
  destruct ps as [|p' ps']; [assumption|].
  apply (IH (fun q Hq => Hps q (or_intror Hq)) n m); assumption.
Qed.

Lemma fuel_monotone_choice_fn (T : Type) (ps : list (Parser T)) :
  (forall p, In p ps -> fuel_monotone p) ->
  forall n m s failures r,
    n <= m ->
    choice_fn ps n s failures = Done r ->
    choice_fn ps m s failures = Done r.
Proof.
  induction ps as [|p ps IH]; intros Hps n m s failures r Hle H; cbn in *;
    [assumption|].
  apply bind_Done in H. destruct H as (res & Hp & H).
  rewrite (Hps p (or_introl eq_refl) n m s res Hle Hp). cbn.
  destruct res as [c u sf|msg cs]; [assumption|].
  apply (IH (fun q Hq => Hps q (or_intror Hq)) n m); assumption.
Qed.

Lemma fuel_monotone_repeat_fn (T : Type) (p : Parser T) (str0 : jsstr) :
  fuel_monotone p ->
  forall calls calls' n m cur acc r,
    n <= m -> calls <= calls' ->
    repeat_fn p n str0 calls cur acc = Done r ->
    repeat_fn p m str0 calls' cur acc = Done r.
Proof.
  intros Hp. induction calls as [|calls IH];
    intros calls' n m cur acc r Hle Hcalls H; cbn in H; [discriminate|].
  destruct calls' as [|calls']; [lia|]. cbn.
  apply bind_Done in H. destruct H as (res & Hres & H).
  rewrite (Hp n m cur res Hle Hres). cbn.
  destruct res as [c u sf|msg cs]; [|assumption].
  destruct (negb (is_empty_string u)); [|assumption].
  apply (IH calls' n m); [assumption|lia|assumption].
Qed.

(** Every parser built with the public constructors returns, given more
    fuel, the outcome it returned before. *)
Theorem fuel_monotone_built (T : Type) (p : Parser T) :
  built any_pattern p -> fuel_monotone p.
Proof.
  induction 1 as [literal|exp Hg|T ps _ IH|T ps _ IH|T p _ IH
                 |T factory _ IH|T R p action _ IH|T p predicate _ IH
                 |T p cb _ IH|T U p q _ IHp _ IHq];
    intros n m s r Hle H; cbn in H |- *.
  - exact H.
  - exact H.
  - unfold _matchSeq in *. eapply fuel_monotone_matchSeq_fn; eassumption.
  - eapply fuel_monotone_choice_fn; eassumption.
  - eapply fuel_monotone_repeat_fn; eassumption.
  - eapply IH; eassumption.
  - apply bind_Done in H. destruct H as (res & Hp & H).
    now rewrite (IH n m s res Hle Hp).
  - apply bind_Done in H. destruct H as (res & Hp & H).
    now rewrite (IH n m s res Hle Hp).
  - apply bind_Done in H. destruct H as (res & Hp & H).
    now rewrite (IH n m s res Hle Hp).
  - apply bind_Done in H. destruct H as (res & Hq & H).
    rewrite (IHq n m s res Hle Hq). cbn.
    destruct res as [c u sf|msg cs]; [assumption|].
    eapply IHp; eassumption.
Qed.

Example fuel_monotone_example :
  fuel_monotone (repeat (not_ (str "a") (regexp re_group_ab))).
Proof.
  apply fuel_monotone_built.
  apply built_repeat, built_not; [apply built_str|now apply built_regexp].
Qed.

(* ================================================================== *)
(** * Where [repeat] stops *)

(** From a cursor that is a string, a run of [fn] that returns has stopped
    on a string, which is empty or one the parser fails on; or it took the
    default for an [undefined] cursor and started again from the input. *)
Lemma repeat_fn_stops (T : Type) (p : Parser T) (fuel : nat) (str0 : jsstr)
  (calls : nat) :
  forall (cur : string) acc r,
    repeat_fn p fuel str0 calls (Some cur) acc = Done r ->
    (exists l (u : string),
        r = Success (acc ++ l) (Some u) None
        /\ (u = ""
            \/ exists m cz, consume p fuel (Some u) = Done (Failure m cz)))
    \/ (exists calls' acc',
           calls' < calls /\ length acc < length acc'
           /\ repeat_fn p fuel str0 calls' str0 acc' = Done r).
Proof.
  induction calls as [|calls IH]; intros cur acc r H; cbn in H;
    [discriminate|].
  destruct (consume p fuel (Some cur)) as [[c u sf|m cz]| |] eqn:Hp;
    cbn in H; try discriminate.
  - destruct u as [[|a u]|]; cbn in H.
    + inversion H; subst. left. exists [c], "". auto.
    + destruct (IH _ _ _ H) as [(l & u' & -> & Hu)
                               |(calls' & acc' & Hlt & Hlen & Hre)].
      * left. exists (c :: l), u'. split; [now rewrite <- app_assoc|exact Hu].
      * right. exists calls', acc'. rewrite length_app in Hlen. cbn in Hlen.
        repeat split; [lia|lia|assumption].
    + right. exists calls, (acc ++ [c]).
      rewrite length_app. cbn. repeat split; [lia|lia|assumption].
  - inversion H; subst. left. exists [], cur. split.
    + now rewrite app_nil_r.
    + right. eauto.
Qed.

Lemma repeat_stops (T : Type) (p : Parser T) (fuel : nat) (s : string)
  (r : ParseResultInner (list T)) :
  consume (repeat p) fuel (Some s) = Done r ->
  exists cs (u : string),
    r = Success cs (Some u) None
    /\ (u = "" \/ exists m cz, consume p fuel (Some u) = Done (Failure m cz)).
Proof.
  intros H. cbn in H.
  destruct (repeat_fn_stops _ _ _ _ _ _ H)
    as [(l & u & -> & Hu)|(calls' & acc' & Hlt & Hlen & Hre)].
  - now exists l, u.
  - exfalso.
    destruct (repeat_fn_acc _ _ _ _ _ _ H) as (l & u & -> & Hall).
    apply repeat_fn_more_calls with (calls' := fuel) in Hre; [|lia].
    rewrite Hall in Hre. inversion Hre as [E].
    apply (f_equal (@length T)) in E. rewrite !length_app in E. cbn in *. lia.
Qed.

(** X6. [repeat] is greedy to the end: whenever [repeat(p).consume(s)]
    returns on a string, what it leaves unconsumed is a string (never
    [undefined], whatever [p] returns), and that string is empty or one on
    which [p] fails. *)
Theorem repeat_stops_where_parser_fails (T : Type) (p : Parser T)
  (fuel : nat) (s : string) (cs : list T) (u : jsstr)
  (sf : option (list FailureObject))
  (Hreturns : consume (repeat p) fuel (Some s) = Done (Success cs u sf)) :
  exists u' : string,
    u = Some u'
    /\ (u' = ""
        \/ exists m cz, consume p fuel (Some u') = Done (Failure m cz)).
Proof.
  destruct (repeat_stops _ _ _ Hreturns) as (cs' & u' & E & Hu).
  inversion E; subst. now exists u'.
Qed.

Lemma repeat_stops_where_parser_fails_witness :
  exists u' : string,
    Some "b" = Some u'
    /\ (u' = ""
        \/ exists m cz, consume (str "a") 3 (Some u') = Done (Failure m cz)).
Proof.
  apply (@repeat_stops_where_parser_fails _ (str "a") 3 "aab" ["a"; "a"]
           (Some "b") None).
  reflexivity.
Defined.

(** X7. [repeat] gives nothing back: an outcome that
    [sequence(repeat(p), p)] returns on a string is a Failure unless [p]
    succeeds on the empty string, because [repeat(p)] stops on the empty
    string or where [p] fails. ([p] is mapped to a one-element array, the
    contents of a [sequence] being of one type here.) *)
Theorem sequence_repeat_then_same (T : Type) (p : Parser T) (fuel : nat)
  (s : string) (r : ParseResultInner (list (list T)))
  (Hreturns :
     consume (sequence [repeat p; then_ p (fun c => [c])]) fuel (Some s)
     = Done r) :
  (exists m cz, r = Failure m cz)
  \/ (exists c u sf, consume p fuel (Some "") = Done (Success c u sf)).
Proof.
  cbn in Hreturns. unfold _matchSeq in Hreturns. cbn in Hreturns.
  apply bind_Done in Hreturns. destruct Hreturns as (r1 & H1 & H).
  change (repeat_fn p fuel (Some s) fuel (Some s) [])
    with (consume (repeat p) fuel (Some s)) in H1.
  destruct (repeat_stops _ _ _ H1) as (cs & u & -> & Hu).
  cbn in H. apply bind_Done in H. destruct H as (r2 & H2 & H).
  apply bind_Done in H2. destruct H2 as (r3 & H3 & H2).
  destruct Hu as [->|(m & cz & Hf)].
  - destruct r3 as [c u' sf'|m cz].
    + right. eauto.
    + inversion H2; subst. cbn in H. inversion H. left. eauto.
  - rewrite Hf in H3. inversion H3; subst. inversion H2; subst.
    cbn in H. inversion H. left. eauto.
Qed.

Lemma sequence_repeat_then_same_witness :
  (exists m cz,
      @Failure (list (list string)) "Literal 'a' not matched: ''" None
      = Failure m cz)
  \/ (exists c u sf, consume (str "a") 3 (Some "") = Done (Success c u sf)).
Proof.
  apply (@sequence_repeat_then_same _ (str "a") 3 "aa").
  reflexivity.
Defined.

(** X8. [repeat(p).consume(s)] does not return when [p] succeeds on the
    non-empty input [s] and leaves all of it unconsumed: [fn] calls itself
    on the same cursor without end. *)
Theorem repeat_diverges_without_progress (T : Type) (p : Parser T)
  (fuel : nat) (s : string) (c : T) (sf : option (list FailureObject))
  (Hnonempty : s <> "")
  (Hstuck : consume p fuel (Some s) = Done (Success c (Some s) sf)) :
  consume (repeat p) fuel (Some s) = OutOfFuel.
Proof.
  cbn. generalize (@nil T) as acc. generalize fuel at 2 as calls.
  induction calls as [|calls IH]; intros acc; [reflexivity|].
  cbn. rewrite Hstuck. cbn.
  destruct s as [|a s']; [contradiction|]. cbn. apply IH.
Qed.

Lemma repeat_diverges_without_progress_witness :
  consume (repeat (regexp (mkRegExp "a*" "" (Star (Char "a"))))) 7 (Some "b")
  = OutOfFuel.
Proof.
  apply (@repeat_diverges_without_progress _
           (regexp (mkRegExp "a*" "" (Star (Char "a")))) 7 "b" (Some "") None).
  - discriminate.
  - reflexivity.
Defined.

(* ================================================================== *)
(** * How the methods of the parser core compose *)

(** X9. Mapping twice is mapping with the composed function, validating
    twice is validating with both predicates, and validating a mapped
    content is mapping the content validated through the map: each pair
    of parsers returns the same outcome on every input. *)
Theorem then_validate_compose (T R S : Type) (p : Parser T)
  (f : T -> R) (g : R -> S) (a b : T -> bool) (h : R -> bool)
  (fuel : nat) (s : jsstr) :
  consume (then_ (then_ p f) g) fuel s
  = consume (then_ p (fun x => g (f x))) fuel s
  /\ consume (validate (validate p a) b) fuel s
     = consume (validate p (fun x => a x && b x)) fuel s
  /\ consume (validate (then_ p f) h) fuel s
     = consume (then_ (validate p (fun x => h (f x))) f) fuel s.
Proof.
  cbn. destruct (consume p fuel s) as [[c u sf|m cz]| |]; cbn;
    repeat split; try reflexivity.
  - destruct (a c); cbn; [destruct (b c)|]; reflexivity.
  - destruct (h (f c)); reflexivity.
Qed.

(** X10. [then] with the identity is not the identity: it returns the
    success of [p] without its suppressedFailures, so [parse] of a mapped
    parser reports an unconsumed remainder without the causes that
    [parse] of the parser itself reports. *)
Theorem then_drops_suppressedFailures (T R : Type) (p : Parser T)
  (f : T -> R) (fuel : nat) (s : jsstr) (c : T) (r : string)
  (sf : option (list FailureObject))
  (Hrest : r <> "")
  (Hp : consume p fuel s = Done (Success c (Some r) sf)) :
  parse p fuel s
  = Done (ParseFailure ("Expect EOF. But '" ++ r ++ "' was found") sf)
  /\ parse (then_ p f) fuel s
     = Done (ParseFailure ("Expect EOF. But '" ++ r ++ "' was found") None).
Proof.
  unfold parse. cbn. rewrite Hp. cbn.
  destruct r as [|x r']; [contradiction|]. now split.
Qed.

Lemma then_drops_suppressedFailures_witness :
  parse (choice [str "b"; str "a"]) 0 (Some "ab")
  = Done (ParseFailure "Expect EOF. But 'b' was found"
            (Some [mkFailure "Literal 'b' not matched: 'ab'" None]))
  /\ parse (then_ (choice [str "b"; str "a"]) (fun x => x)) 0 (Some "ab")
     = Done (ParseFailure "Expect EOF. But 'b' was found" None).
Proof.
  apply (@then_drops_suppressedFailures _ _ (choice [str "b"; str "a"])
           (fun x => x) 0 (Some "ab") "a" "b"
           (Some [mkFailure "Literal 'b' not matched: 'ab'" None])).
  - discriminate.
  - reflexivity.
Defined.

(** X11. [p.not(q)] succeeds only where [q] fails and [p] succeeds, and
    then with the outcome of [p]; and [p.not(p)] never succeeds. *)
Theorem not_succeeds_only_where_negated_fails (T U : Type) (p : Parser T)
  (q : Parser U) (fuel : nat) (s : jsstr) :
  (forall c u sf,
      consume (not_ p q) fuel s = Done (Success c u sf) ->
      (exists m cz, consume q fuel s = Done (Failure m cz))
      /\ consume p fuel s = Done (Success c u sf))
  /\ (forall r,
         consume (not_ p p) fuel s = Done r -> exists m cz, r = Failure m cz).
Proof.
  split.
  - intros c u sf H. cbn in H. apply bind_Done in H.
    destruct H as (rq & Hq & H).
    destruct rq as [c' u' sf'|m cz]; [discriminate|]. eauto.
  - intros r H. cbn in H. apply bind_Done in H.
    destruct H as (rp & Hp & H).
    destruct rp as [c' u' sf'|m cz]; [inversion H; eauto|].
    rewrite Hp in H. inversion H. eauto.
Qed.

(* ================================================================== *)
(** * [choice] commits to its first success *)

(** X12. [choice] does not come back to a later alternative: when the
    alternatives [pre] fail and [p] succeeds leaving a non-empty rest,
    [parse] of the choice fails on that rest, with the failures of [pre]
    as causes, whatever the alternatives after [p] would match. *)
Theorem choice_commits (T : Type) (pre : list (Parser T)) (p : Parser T)
  (post : list (Parser T)) (fs : list FailureObject) (fuel : nat) (s : jsstr)
  (c : T) (r : string) (sf : option (list FailureObject))
  (Hpre : Forall2 (fails_with fuel s) pre fs)
  (Hp : consume p fuel s = Done (Success c (Some r) sf))
  (Hrest : r <> "") :
  parse (choice (pre ++ p :: post)) fuel s
  = Done (ParseFailure ("Expect EOF. But '" ++ r ++ "' was found")
            (collected fs)).
Proof.
  unfold parse. cbn.
  rewrite (@choice_fn_success _ fuel s pre fs p post None c (Some r) sf Hpre Hp).
  cbn. rewrite extend_none.
  destruct r as [|x r']; [contradiction|reflexivity].
Qed.

Lemma choice_commits_witness :
  parse (choice [str "b"; str "a"; str "ab"]) 0 (Some "ab")
  = Done (ParseFailure "Expect EOF. But 'b' was found"
            (Some [mkFailure "Literal 'b' not matched: 'ab'" None]))
  /\ parse (str "ab") 0 (Some "ab") = Done (Match "ab").
Proof.
  split; [|reflexivity].
  apply (@choice_commits _ [str "b"] (str "a") [str "ab"]
           [mkFailure "Literal 'b' not matched: 'ab'" None] 0 (Some "ab")
           "a" "b" None).
  - constructor; [reflexivity|constructor].
  - reflexivity.
  - discriminate.
Defined.

(* ================================================================== *)
(** * Literals and whole inputs *)

Lemma strip_prefix_append (a b : string) :
  forall s,
    strip_prefix (a ++ b) s
    = match strip_prefix a s with
      | Some s' => strip_prefix b s'
      | None => None
      end.
Proof.
  induction a as [|x a IH]; intros s; cbn; [reflexivity|].
  destruct s as [|y s]; [reflexivity|].
  destruct (Ascii.eqb y x); [apply IH|reflexivity].
Qed.

Lemma append_empty_r (s : string) : (s ++ "")%string = s.
Proof. induction s as [|a s IH]; cbn; [reflexivity|now rewrite IH]. Qed.

(** X13. The literal of a concatenation matches where the sequence of the
    two literals does, and leaves the same unconsumed: [str(a + b)]
    succeeds on an input exactly when [sequence(str(a), str(b))] does. *)
Theorem str_append_sequence (a b : string) (fuel : nat) (s : jsstr)
  (u : jsstr) :
  consume (str (a ++ b)) fuel s = Done (Success (a ++ b)%string u None)
  <-> consume (sequence [str a; str b]) fuel s = Done (Success [a; b] u None).
Proof.
  cbn [sequence consume]. unfold _matchSeq. cbn [matchSeq_fn].
  rewrite !str_consume, strip_prefix_append.
  destruct (strip_prefix a (ToString s)) as [s1|]; cbn [bind app].
  - rewrite str_consume. cbn [ToString].
    destruct (strip_prefix b s1) as [s2|]; cbn [bind app]; split; intros H;
      inversion H; reflexivity.
  - split; discriminate.
Qed.

(** X14. [str(literal).parse(s)] is a Match exactly when [s] is the
    literal, and the content of the Match is the literal. *)
Theorem str_parse_exact (literal : string) (fuel : nat) (s : string) :
  (parse (str literal) fuel (Some s) = Done (Match literal) <-> s = literal)
  /\ (forall c, parse (str literal) fuel (Some s) = Done (Match c) ->
                c = literal).
Proof.
  unfold parse. rewrite str_consume. cbn [ToString].
  destruct (strip_prefix literal s) as [s'|] eqn:E; cbn.
  - apply strip_prefix_Some in E. subst s.
    destruct s' as [|x s']; cbn.
    + rewrite append_empty_r. repeat split; intros; congruence.
    + repeat split; try discriminate.
      intros H. exfalso.
      assert (L : String.length (literal ++ String x s') = String.length literal)
        by now rewrite H.
      rewrite length_append in L. cbn in L. lia.
  - repeat split; try discriminate.
    intros ->. rewrite <- (append_empty_r literal) in E at 2.
    now rewrite strip_prefix_app in E.
Qed.

(* ================================================================== *)
(** * [sequence] and [choice] of lists put end to end *)

Lemma matchSeq_fn_prev (T : Type) (fuel : nat) (qs : list (Parser T)) :
  forall cur prev acc,
    matchSeq_fn qs fuel cur (prev ++ acc)
    = (r <- matchSeq_fn qs fuel cur acc ;;
       match r with
       | Success ds v _ => Done (Success (prev ++ ds) v None)
       | Failure m cz => Done (Failure m cz)
       end).
Proof.
  induction qs as [|q qs IH]; intros cur prev acc; cbn; [reflexivity|].
  destruct (consume q fuel cur) as [[c u sf|m cz]| |]; cbn; try reflexivity.
  destruct qs as [|q' qs'].
  - cbn. now rewrite app_assoc.
  - rewrite <- app_assoc. apply IH.
Qed.

Lemma matchSeq_fn_app (T : Type) (fuel : nat) (ps qs : list (Parser T)) :
  ps <> [] -> qs <> [] ->
  forall cur prev,
    matchSeq_fn (ps ++ qs) fuel cur prev
    = (r <- matchSeq_fn ps fuel cur prev ;;
       match r with
       | Success cs u _ => matchSeq_fn qs fuel u cs
       | Failure m cz => Done (Failure m cz)
       end).
Proof.
  intros Hps Hqs. induction ps as [|p ps IH]; [contradiction|].
  intros cur prev. cbn.
  destruct (consume p fuel cur) as [[c u sf|m cz]| |]; cbn; try reflexivity.
  destruct ps as [|p' ps'].
  - cbn. destruct qs; [contradiction|reflexivity].
  - cbn [app] in *. apply IH. discriminate.
Qed.

(** X15. [sequence] flattens: on every input, the sequence of two
    non-empty lists of parsers put end to end returns what the sequence
    of the first list followed, on what it leaves unconsumed, by the
    sequence of the second list returns, the contents put end to end;
    and the sequence of one parser is that parser mapped to a one-element
    array. *)
Theorem sequence_app (T : Type) (ps qs : list (Parser T)) (fuel : nat)
  (s : jsstr) (Hps : ps <> []) (Hqs : qs <> []) :
  consume (sequence (ps ++ qs)) fuel s
  = (r1 <- consume (sequence ps) fuel s ;;
     match r1 with
     | Success cs u _ =>
         r2 <- consume (sequence qs) fuel u ;;
         match r2 with
         | Success ds v _ => Done (Success (cs ++ ds) v None)
         | Failure m cz => Done (Failure m cz)
         end
     | Failure m cz => Done (Failure m cz)
     end)
  /\ forall p : Parser T,
       consume (sequence [p]) fuel s
       = consume (then_ p (fun c => [c])) fuel s.
Proof.
  split.
  - cbn [sequence consume]. unfold _matchSeq.
    rewrite (matchSeq_fn_app fuel Hps Hqs).
    destruct (matchSeq_fn ps fuel s []) as [[cs u sf|m cz]| |]; cbn [bind];
      try reflexivity.
    rewrite <- (app_nil_r cs) at 1. apply matchSeq_fn_prev.
  - intros p. cbn. unfold _matchSeq. cbn.
    now destruct (consume p fuel s) as [[c u sf|m cz]| |].
Qed.

Lemma sequence_app_witness :
  consume (sequence ([str "a"; str "b"] ++ [str "c"])) 0 (Some "abcd")
  = Done (Success (["a"; "b"] ++ ["c"]) (Some "d") None).
Proof.
  exact (proj1 (@sequence_app _ [str "a"; str "b"] [str "c"] 0 (Some "abcd")
                  ltac:(discriminate) ltac:(discriminate))).
Defined.

Lemma join_failures_push (a b : option (list FailureObject)) (f : FailureObject) :
  join_failures a (match b with
                   | Some fs => Some (fs ++ [f])
                   | None => Some [f]
                   end)
  = match join_failures a b with
    | Some fs => Some (fs ++ [f])
    | None => Some [f]
    end.
Proof.
  destruct a as [l|], b as [l'|]; cbn; try reflexivity.
  now rewrite app_assoc.
Qed.

Lemma choice_fn_failures (T : Type) (fuel : nat) (s : jsstr)
  (qs : list (Parser T)) :
  forall failures acc,
    choice_fn qs fuel s (join_failures failures acc)
    = (r <- choice_fn qs fuel s acc ;;
       match r with
       | Success c u sf => Done (Success c u (join_failures failures sf))
       | Failure m fs => Done (Failure m (join_failures failures fs))
       end).
Proof.
  induction qs as [|q qs IH]; intros failures acc; cbn; [reflexivity|].
  destruct (consume q fuel s) as [[c u sf|m cz]| |]; cbn; try reflexivity.
  rewrite <- join_failures_push. apply IH.
Qed.

Lemma choice_fn_app (T : Type) (fuel : nat) (s : jsstr)
  (ps qs : list (Parser T)) :
  forall failures,
    choice_fn (ps ++ qs) fuel s failures
    = (r <- choice_fn ps fuel s failures ;;
       match r with
       | Success c u sf => Done (Success c u sf)
       | Failure _ fs => choice_fn qs fuel s fs
       end).
Proof.
  induction ps as [|p ps IH]; intros failures; cbn; [reflexivity|].
  destruct (consume p fuel s) as [[c u sf|m cz]| |]; cbn; try reflexivity.
  apply IH.
Qed.

(** X16. [choice] flattens: on every input, the choice of two lists of
    alternatives put end to end returns the success of the choice of the
    first list if there is one, and otherwise what the choice of the
    second list returns, with the failures of the first list put before
    its suppressedFailures or causes. *)
Theorem choice_app (T : Type) (ps qs : list (Parser T)) (fuel : nat)
  (s : jsstr) :
  consume (choice (ps ++ qs)) fuel s
  = (r1 <- consume (choice ps) fuel s ;;
     match r1 with
     | Success c u sf => Done (Success c u sf)
     | Failure _ fs =>
         r2 <- consume (choice qs) fuel s ;;
         match r2 with
         | Success c u sf => Done (Success c u (join_failures fs sf))
         | Failure m fs2 => Done (Failure m (join_failures fs fs2))
         end
     end).
Proof.
  cbn [choice consume]. rewrite choice_fn_app.
  destruct (choice_fn ps fuel s None) as [[c u sf|m fs]| |]; cbn [bind];
    try reflexivity.
  rewrite <- choice_fn_failures. now destruct fs.
Qed.

(* ================================================================== *)
(** * Grammars that return on every input *)

Lemma returns_matchSeq_fn (T : Type) (ps : list (Parser T)) :
  (forall p, In p ps -> well_behaved p) ->
  ps <> [] ->
  forall (c : string) prev,
    exists n r, matchSeq_fn ps n (Some c) prev = Done r.
Proof.
  induction ps as [|p ps IH]; intros Hps Hne c prev; [contradiction|].
  destruct (Hps p (or_introl eq_refl)) as (Hmono & Hsuf & Hret).
  destruct (Hret c) as (n1 & [x u sf|m cz] & H1).
  - destruct (Hsuf _ _ _ _ _ H1) as (v & -> & _).
    destruct ps as [|p' ps'].
    + exists n1. eexists. cbn. rewrite H1. reflexivity.
    + destruct (IH (fun q Hq => Hps q (or_intror Hq)) ltac:(discriminate)
                  v (prev ++ [x])) as (n2 & r2 & H2).
      exists (Nat.max n1 n2), r2.
      cbn [matchSeq_fn].
      rewrite (Hmono n1 (Nat.max n1 n2) _ _ ltac:(lia) H1). cbn [bind].
      apply (@fuel_monotone_matchSeq_fn _ (p' :: ps')
               (fun q Hq => proj1 (Hps q (or_intror Hq))) n2); [lia|exact H2].
  - exists n1. eexists. cbn. rewrite H1. reflexivity.
Qed.

Lemma returns_choice_fn (T : Type) (ps : list (Parser T)) :
  (forall p, In p ps -> well_behaved p) ->
  forall (c : string) failures,
    exists n r, choice_fn ps n (Some c) failures = Done r.
Proof.
  induction ps as [|p ps IH]; intros Hps c failures.
  - exists 0. eexists. reflexivity.
  - destruct (Hps p (or_introl eq_refl)) as (Hmono & _ & Hret).
    destruct (Hret c) as (n1 & [x u sf|m cz] & H1).
    + exists n1. eexists. cbn. rewrite H1. reflexivity.
    + destruct (IH (fun q Hq => Hps q (or_intror Hq)) c
                  (match failures with
                   | Some fs => Some (fs ++ [mkFailure m cz])
                   | None => Some [mkFailure m cz]
                   end)) as (n2 & r2 & H2).
      exists (Nat.max n1 n2), r2. cbn [choice_fn].
      rewrite (Hmono n1 (Nat.max n1 n2) _ _ ltac:(lia) H1). cbn [bind].
      apply (@fuel_monotone_choice_fn _ ps
               (fun q Hq => proj1 (Hps q (or_intror Hq))) n2); [lia|exact H2].
Qed.

Lemma well_behaved_leaves (literal : string) (exp : RegExpObject) :
  well_behaved (str literal)
  /\ (no_group exp -> well_behaved (regexp exp)).
Proof.
  split; [|intros Hg]; repeat split.
  - apply str_fuel_monotone.
  - apply suffix_invariant_str.
  - apply str_returns_on_strings.
  - intros n m c r _ H. exact H.
  - now apply suffix_invariant_regexp.
  - intros c. exists 0. unfold regexp. cbn [consume].
    destruct (exec _ _); eauto.
Qed.

Lemma well_behaved_lists (T : Type) (ps : list (Parser T)) :
  (forall p, In p ps -> well_behaved p) ->
  well_behaved (choice ps) /\ (ps <> [] -> well_behaved (sequence ps)).
Proof.
  intros Hps. split; [|intros Hne]; repeat split.
  - intros n m c r Hle H. cbn in *.
    apply (@fuel_monotone_choice_fn _ ps (fun q Hq => proj1 (Hps q Hq)) n);
      assumption.
  - apply suffix_invariant_choice. intros q Hq. apply (Hps q Hq).
  - intros c. apply returns_choice_fn. exact Hps.
  - intros n m c r Hle H. cbn in *. unfold _matchSeq in *.
    apply (@fuel_monotone_matchSeq_fn _ ps (fun q Hq => proj1 (Hps q Hq)) n);
      assumption.
  - apply suffix_invariant_sequence. intros q Hq. apply (Hps q Hq).
  - intros c. apply returns_matchSeq_fn; assumption.
Qed.

Lemma well_behaved_repeat (T : Type) (p : Parser T) :
  well_behaved p -> makes_progress p -> well_behaved (repeat p).
Proof.
  intros (Hmono & Hsuf & Hret) Hprog. repeat split.
  - intros n m c r Hle H. cbn in *.
    apply (@fuel_monotone_repeat_fn _ p c Hmono n m n); assumption.
  - now apply suffix_invariant_repeat.
  - intros c.
    destruct (@repeat_fn_returns T p (Some c) Hmono Hret Hprog
                (String.length c) c (le_n _)) as (N & HN).
    destruct (HN (Nat.max N (S (String.length c)))
                (Nat.max N (S (String.length c))) [] ltac:(lia) ltac:(lia))
      as (cs & u & H).
    exists (Nat.max N (S (String.length c))), (Success cs u None). exact H.
Qed.

Lemma well_behaved_core (T R U : Type) (p : Parser T) (action : T -> R)
  (predicate : T -> bool) (cb : jsstr -> ParseResultInner T -> unit)
  (q : Parser U) (factory : unit -> Parser T) :
  well_behaved p ->
  well_behaved (then_ p action)
  /\ well_behaved (validate p predicate)
  /\ well_behaved (onParsed p cb)
  /\ (well_behaved q -> well_behaved (not_ p q))
  /\ (well_behaved (factory tt) -> well_behaved (lazy factory)).
Proof.
  intros (Hmono & Hsuf & Hret).
  destruct (suffix_invariant_core action predicate cb q factory Hsuf)
    as (S1 & S2 & S3 & S4 & S5).
  split; [|split; [|split; [|split]]].
  - repeat split; [|exact S1|].
    + intros n m c r Hle H. cbn in *. apply bind_Done in H.
      destruct H as (res & Hp & H). now rewrite (Hmono n m c res Hle Hp).
    + intros c. destruct (Hret c) as (n & r & H). exists n. cbn. rewrite H.
      destruct r; cbn; eauto.
  - repeat split; [|exact S2|].
    + intros n m c r Hle H. cbn in *. apply bind_Done in H.
      destruct H as (res & Hp & H). now rewrite (Hmono n m c res Hle Hp).
    + intros c. destruct (Hret c) as (n & r & H). exists n. cbn. rewrite H.
      destruct r as [x u sf|m cz]; cbn; [destruct (predicate x)|]; eauto.
  - repeat split; [|exact S3|].
    + intros n m c r Hle H. cbn in *. apply bind_Done in H.
      destruct H as (res & Hp & H). now rewrite (Hmono n m c res Hle Hp).
    + intros c. destruct (Hret c) as (n & r & H). exists n. cbn. rewrite H.
      cbn. eauto.
  - intros (Hmq & _ & Hrq). repeat split; [|exact S4|].
    + intros n m c r Hle H. cbn in *. apply bind_Done in H.
      destruct H as (res & Hq & H). rewrite (Hmq n m c res Hle Hq). cbn.
      destruct res as [x u sf|msg cz]; [assumption|].
      now apply (Hmono n m).
    + intros c. destruct (Hrq c) as (n1 & rq & H1).
      destruct rq as [x u sf|msg cz].
      * exists n1. cbn. rewrite H1. cbn. eauto.
      * destruct (Hret c) as (n2 & rp & H2).
        exists (Nat.max n1 n2), rp. cbn.
        rewrite (Hmq n1 (Nat.max n1 n2) _ _ ltac:(lia) H1). cbn.
        apply (Hmono n2); [lia|exact H2].
  - intros (Hmf & Hsf & Hrf). repeat split; [|exact (S5 Hsf)|].
    + intros n m c r Hle H. cbn in *. now apply (Hmf n m).
    + intros c. destruct (Hrf c) as (n & r & H). exists n, r. exact H.
Qed.

Lemma well_formed_well_behaved (T : Type) (p : Parser T) :
  well_formed p -> well_behaved p.
Proof.
  induction 1 as [literal|exp Hg|T ps Hne _ IH|T ps _ IH|T p _ IH Hprog
                 |T factory _ IH|T R p action _ IH|T p predicate _ IH
                 |T p cb _ IH|T U p q _ IHp _ IHq].
  - apply (well_behaved_leaves literal (mkRegExp "" "" Empty)).
  - now apply (well_behaved_leaves "" exp).
  - now apply (well_behaved_lists ps IH).
  - apply (well_behaved_lists ps IH).
  - now apply well_behaved_repeat.
  - now apply (well_behaved_core (fun x => x) (fun _ => true)
                 (fun _ _ => tt) (factory tt) factory IH).
  - apply (well_behaved_core action (fun _ => true)
             (fun _ _ => tt) p (fun _ => p) IH).
  - apply (well_behaved_core (fun x => x) predicate
             (fun _ _ => tt) p (fun _ => p) IH).
  - apply (well_behaved_core (fun x => x) (fun _ => true)
             cb p (fun _ => p) IH).
  - now apply (well_behaved_core (fun x => x) (fun _ => true)
                 (fun _ _ => tt) q (fun _ => p) IHp).
Qed.

Lemma makes_progress_choice (T : Type) (ps : list (Parser T)) :
  (forall p, In p ps -> makes_progress p) -> makes_progress (choice ps).
Proof.
  intros Hps n c x u sf H. cbn in H. apply choice_fn_inv in H.
  destruct H as [(pre & p & post & fs & c' & u' & sf' & -> & _ & Hp & E)
                |(fs & _ & E)]; [|discriminate E].
  inversion E; subst.
  eapply Hps; [|eassumption]. apply in_or_app. right. now left.
Qed.

(** X17. A grammar built in finitely many steps with the public
    constructors (so one that does not refer to itself through [lazy])
    returns an outcome on every string, and the same outcome however
    deep the recursion may go beyond that, provided every [sequence] in
    it has at least one parser, no pattern has a capturing group of its
    own, and every [repeat] in it is given a parser whose successes leave
    the empty string or less than their input. *)
Theorem well_formed_returns (T : Type) (p : Parser T) (s : string)
  (Hwf : well_formed p) :
  exists fuel r,
    consume p fuel (Some s) = Done r
    /\ forall fuel', fuel <= fuel' -> consume p fuel' (Some s) = Done r.
Proof.
  destruct (well_formed_well_behaved Hwf) as (Hmono & _ & Hret).
  destruct (Hret s) as (n & r & H). exists n, r.
  split; [exact H|]. intros m Hle. now apply (Hmono n m).
Qed.

Lemma well_formed_returns_witness :
  exists fuel r,
    consume
      (sequence [str "("; then_ (repeat (choice [str "a"; str "b"]))
                            (fun _ => "x"); str ")"])
      fuel (Some "(ab)") = Done r
    /\ forall fuel',
         fuel <= fuel' ->
         consume
           (sequence [str "("; then_ (repeat (choice [str "a"; str "b"]))
                                 (fun _ => "x"); str ")"])
           fuel' (Some "(ab)") = Done r.
Proof.
  apply well_formed_returns.
  apply wf_sequence; [discriminate|]. intros p [<-|[<-|[<-|[]]]].
  - apply wf_str.
  - apply wf_then, wf_repeat.
    + apply wf_choice. intros q [<-|[<-|[]]]; apply wf_str.
    + apply makes_progress_choice.
      intros q [<-|[<-|[]]]; apply str_makes_progress.
  - apply wf_str.
Defined.

(* ================================================================== *)
(** * [regexp] on any pattern *)

Lemma append_assoc (a b c : string) :
  ((a ++ b) ++ c)%string = (a ++ b ++ c)%string.
Proof. induction a as [|x a IH]; cbn; [reflexivity|now rewrite IH]. Qed.

Lemma within_length (input t : string) :
  within input t -> String.length t <= String.length input.
Proof. intros (l & r & ->). rewrite !length_append. lia. Qed.

Lemma within_suffix (input t : string) : is_suffix t input -> within input t.
Proof. intros [pre ->]. exists pre, "". now rewrite append_empty_r. Qed.

Lemma within_consumed (input x y : string) :
  is_suffix x input -> is_suffix y x -> within input (consumed x y).
Proof.
  intros [l ->] [pre ->]. rewrite consumed_app. now exists l, y.
Qed.

Lemma captures_within_set (input : string) (v : option string) :
  match v with Some t => within input t | None => True end ->
  forall i caps,
    captures_within input caps ->
    captures_within input (set_capture i v caps).
Proof.
  intros Hv. induction i as [|i IH]; intros caps Hc;
    destruct caps as [|c caps]; cbn; try assumption;
    inversion Hc; subst; constructor; auto.
  now apply IH.
Qed.

Lemma captures_within_clear (input : string) (k : nat) :
  forall i caps,
    captures_within input caps ->
    captures_within input (clear_captures i k caps).
Proof.
  induction k as [|k IH]; intros i caps Hc; cbn; [assumption|].
  apply captures_within_set; [exact I|]. now apply IH.
Qed.

Lemma state_of_reached (input : string) (x y : MatchState) :
  state_of input x -> reached_from x y ->
  captures_within input (captures y) -> state_of input y.
Proof.
  intros [Hs _] [Hr _] Hc. split; [|assumption].
  eapply is_suffix_trans; eassumption.
Qed.

Lemma repeatMatcher_within (input : string)
  (m : MatchState -> Continuation -> option MatchState) (i k : nat) :
  (forall x c z,
      state_of input x -> m x c = Some z ->
      exists y, c y = Some z /\ reached_from x y /\ state_of input y) ->
  forall fuel x c z,
    state_of input x ->
    repeatMatcher m i k fuel x c = Some z ->
    exists y, c y = Some z /\ reached_from x y /\ state_of input y.
Proof.
  intros Hm. induction fuel as [|fuel IH]; intros x c z Hx H; cbn in H.
  - exists x. repeat split; try assumption; try apply reached_refl; apply Hx.
  - match type of H with
    | match ?e with _ => _ end = _ => destruct e as [z'|] eqn:E
    end.
    + inversion H; subst. apply Hm in E.
      * destruct E as (y1 & Hd & Hr1 & Hy1).
        destruct (Nat.eqb _ _); [discriminate|].
        destruct (IH _ _ _ Hy1 Hd) as (y & Hc & Hr & Hy).
        exists y. split; [assumption|]. split; [|assumption].
        eapply reached_trans; [apply reached_clear|].
        eapply reached_trans; eassumption.
      * destruct Hx as [Hs Hc]. split; [exact Hs|].
        now apply captures_within_clear.
    + exists x. repeat split; try assumption; try apply reached_refl; apply Hx.
Qed.

(** The matcher keeps every capture a piece of the input. *)
Lemma matcher_within (input : string) (r : regex) :
  forall i x c z,
    state_of input x ->
    matcher input r i x c = Some z ->
    exists y, c y = Some z /\ reached_from x y /\ state_of input y.
Proof.
  induction r as [|ch| | | |r1 IH1 r2 IH2|r1 IH1 r2 IH2|r1 IH1|r1 IH1];
    intros i x c z Hx H; cbn [matcher] in H.
  - exists x. repeat split; try assumption; try apply reached_refl; apply Hx.
  - destruct x as [[|a s'] caps]; cbn in H; [discriminate|].
    destruct (Ascii.eqb a ch); [|discriminate].
    eexists. split; [eassumption|].
    assert (Hr : reached_from (mkState (String a s') caps) (mkState s' caps))
      by (split; [apply is_suffix_tail|reflexivity]).
    split; [exact Hr|]. eapply state_of_reached; [exact Hx|exact Hr|apply Hx].
  - destruct x as [[|a s'] caps]; cbn in H; [discriminate|].
    eexists. split; [eassumption|].
    assert (Hr : reached_from (mkState (String a s') caps) (mkState s' caps))
      by (split; [apply is_suffix_tail|reflexivity]).
    split; [exact Hr|]. eapply state_of_reached; [exact Hx|exact Hr|apply Hx].
  - destruct (Nat.eqb _ _); [|discriminate].
    exists x. repeat split; try assumption; try apply reached_refl; apply Hx.
  - destruct (rest x) eqn:E; [|discriminate].
    exists x. repeat split; try assumption; try apply reached_refl; apply Hx.
  - apply IH1 in H; [|assumption]. destruct H as (y1 & H & Hr1 & Hy1).
    apply IH2 in H; [|assumption]. destruct H as (y & H & Hr & Hy).
    exists y. split; [assumption|]. split; [|assumption].
    eapply reached_trans; eassumption.
  - destruct (matcher input r1 i x c) as [z'|] eqn:E.
    + inversion H; subst. now apply IH1 in E.
    + now apply IH2 in H.
  - eapply repeatMatcher_within; [|exact Hx|exact H].
    intros x' c' z'. apply IH1.
  - apply IH1 in H; [|assumption]. destruct H as (y1 & H & Hr1 & Hy1).
    eexists. split; [exact H|].
    assert (Hr : reached_from x
                   (mkState (rest y1)
                      (set_capture i (Some (consumed (rest x) (rest y1)))
                         (captures y1)))).
    { destruct Hr1 as [Hs Hl]. split; [exact Hs|].
      cbn. now rewrite length_set_capture. }
    split; [exact Hr|]. split; [apply Hy1|]. cbn.
    apply captures_within_set; [|apply Hy1].
    apply within_consumed; [apply Hx|apply Hr1].
Qed.

Lemma captures_within_repeat_None (input : string) (n : nat) :
  captures_within input (List.repeat None n).
Proof. induction n as [|n IH]; cbn; constructor; auto. Qed.

(** X18. Whatever the pattern, a success of [regexp] has for content a
    prefix of the input, the text the pattern matched; its unconsumed is
    [undefined] or a piece of the input, so never longer than the input,
    though not always what follows the content. *)
Theorem regexp_success_any_pattern (exp : RegExpObject) (fuel : nat)
  (s : string) (c u : jsstr) (sf : option (list FailureObject))
  (Hsucc : consume (regexp exp) fuel (Some s) = Done (Success c u sf)) :
  (exists pre post : string, c = Some pre /\ s = (pre ++ post)%string)
  /\ (u = None
      \/ exists t : string,
           u = Some t /\ within s t /\ String.length t <= String.length s)
  /\ sf = None.
Proof.
  unfold regexp in Hsucc. cbn [consume ToString] in Hsucc.
  rewrite exec_anchored, matcher_Seq, matcher_Group in Hsucc.
  match type of Hsucc with
  | context [matcher ?i ?r ?n ?x ?k] =>
      destruct (matcher i r n x k) as [z|] eqn:E
  end; [|discriminate].
  apply matcher_within in E.
  - destruct E as (y & Hk & Hreach & Hstate).
    destruct Hreach as [[pre Hpre] Hlen]. destruct Hstate as [Hsuf Hcaps].
    rewrite matcher_rest_group in Hk. inversion Hk; subst z; clear Hk.
    cbn [rest captures groups Nat.add] in *.
    rewrite repeat_length in Hlen.
    destruct (captures y) as [|c0 [|c1 caps]] eqn:Ey;
      [cbn in Hlen; lia|cbn in Hlen; lia|].
    cbn in Hsucc. inversion Hsucc; subst c u sf; clear Hsucc.
    repeat split.
    + exists pre, (rest y). split; [|exact Hpre].
      rewrite Hpre at 1. now rewrite consumed_app.
    + destruct (groups (pattern exp)) as [|g]; cbn.
      * right. exists (rest y).
        assert (W : within s (rest y)) by now apply within_suffix.
        repeat split; [exact W|now apply within_length].
      * inversion Hcaps as [|? ? _ Hrest]; subst.
        inversion Hrest as [|? ? H1 _]; subst.
        destruct c1 as [t|]; [right|now left].
        exists t. repeat split; [exact H1|now apply within_length].
  - split; [apply is_suffix_refl|]. cbn [captures].
    apply captures_within_repeat_None.
Qed.

Lemma regexp_success_any_pattern_witness :
  (exists pre post : string, Some "ab" = Some pre /\ "abc" = (pre ++ post)%string)
  /\ (Some "a" = None
      \/ exists t : string,
           Some "a" = Some t /\ within "abc" t
           /\ String.length t <= String.length "abc")
  /\ @None (list FailureObject) = None.
Proof.
  apply (@regexp_success_any_pattern re_group_ab 0 "abc").
  reflexivity.
Defined.

(* ================================================================== *)
(** * The text [escapeRegExp] writes *)

Example escapeRegExp_text_example :
  escapeRegExp_text "a.b*(c) d" = "a\.b\*\(c\)\ d".
Proof. reflexivity. Qed.

Lemma syntax_char_is_escaped (c : ascii) :
  is_syntax_char c = true -> is_escaped_char c = true.
Proof.
  destruct c as [[] [] [] [] [] [] [] []]; cbn; intros H;
    first [reflexivity|discriminate H].
Qed.

Lemma backslash_is_escaped (c : ascii) :
  is_escaped_char c = false -> Ascii.eqb c "\" = false.
Proof.
  destruct c as [[] [] [] [] [] [] [] []]; cbn; intros H;
    first [reflexivity|discriminate H].
Qed.

(** No character of the class of [escapeRegExp] is a letter, a digit or
    the underscore: a backslash before any of them is an identity
    escape. *)
Lemma escaped_char_is_identity_escape (c : ascii) :
  is_escaped_char c = true -> is_identity_escape c = true.
Proof.
  destruct c as [[] [] [] [] [] [] [] []]; cbn; intros H;
    first [reflexivity|discriminate H].
Qed.

(** X19. The text [escapeRegExp] writes for a literal is read by the
    engine as the pattern that matches the characters of the literal one
    after the other: every character with a meaning of its own in a
    pattern is in the class and gets its backslash, and no character of
    the class is a letter, a digit or the underscore, before which a
    backslash would be another escape than the character itself. *)
Theorem escapeRegExp_text_reads_as_literal (text : string) :
  read_literal_pattern (escapeRegExp_text text) = Some (escapeRegExp text).
Proof.
  induction text as [|c text IH]; [reflexivity|].
  cbn [escapeRegExp_text escapeRegExp].
  destruct (is_escaped_char c) eqn:E.
  - cbn [read_literal_pattern]. change (Ascii.eqb "\" "\") with true.
    cbn iota. rewrite (escaped_char_is_identity_escape _ E), IH. reflexivity.
  - cbn [read_literal_pattern]. rewrite (backslash_is_escaped _ E).
    destruct (is_syntax_char c) eqn:S.
    + apply syntax_char_is_escaped in S. congruence.
    + rewrite IH. reflexivity.
Qed.

(** Were a letter or a digit in the class, the text would not read as the
    literal: a backslash before [d] is a class of characters. *)
Example letter_escape_is_not_read :
  read_literal_pattern "\d" = None /\ read_literal_pattern "\." = Some (Seq (Char ".") Empty).
Proof. split; reflexivity. Qed.

(** X20. [escapeRegExp] works character by character: the text of a
    concatenation is the concatenation of the texts; it is never shorter
    than the literal and at most twice as long; and two literals with the
    same text are the same literal. *)
Theorem escapeRegExp_text_facts (a b : string) :
  escapeRegExp_text (a ++ b) = (escapeRegExp_text a ++ escapeRegExp_text b)%string
  /\ String.length a <= String.length (escapeRegExp_text a)
  /\ String.length (escapeRegExp_text a) <= 2 * String.length a
  /\ (escapeRegExp_text a = escapeRegExp_text b -> a = b).
Proof.
  repeat split.
  - induction a as [|c a IH]; cbn; [reflexivity|].
    destruct (is_escaped_char c); cbn; now rewrite IH.
  - induction a as [|c a IH]; cbn; [lia|].
    destruct (is_escaped_char c); cbn; lia.
  - induction a as [|c a IH]; cbn; [lia|].
    destruct (is_escaped_char c); cbn; lia.
  - revert b. induction a as [|c a IH]; intros [|d b] H; cbn in H.
    + reflexivity.
    + destruct (is_escaped_char d); discriminate H.
    + destruct (is_escaped_char c); discriminate H.
    + destruct (is_escaped_char c) eqn:Ec, (is_escaped_char d) eqn:Ed;
        inversion H; subst.
      * f_equal. now apply IH.
      * apply backslash_is_escaped in Ed. now rewrite Ascii.eqb_refl in Ed.
      * apply backslash_is_escaped in Ec. now rewrite Ascii.eqb_refl in Ec.
      * f_equal. now apply IH.
Qed.

(* ================================================================== *)
(** * How much [repeat] accumulates *)

Lemma repeat_run_length (T : Type) (p : Parser T) (fuel : nat) :
  makes_progress p ->
  forall cur cs u,
    repeat_run (consume p fuel) cur cs u ->
    forall c : string,
      cur = Some c ->
      length cs <= Nat.max 1 (String.length c).
Proof.
  intros Hprog cur cs u Hrun.
  induction Hrun as [cur m cz Hq|cur x sf Hq|cur x u sf cs cur1 Hq Hne Hrun IH];
    intros c ->; cbn [length].
  - lia.
  - lia.
  - destruct (Hprog _ _ _ _ _ Hq) as (v & -> & [->|Hlt]); [contradiction|].
    specialize (IH v eq_refl).
    destruct v as [|a v]; [contradiction|]. cbn [String.length] in *. lia.
Qed.

(** X21. When every success of [p] leaves the empty string or less than
    its input, [repeat(p)] on a string accumulates at most as many
    contents as the string has characters (one, on the empty string), so
    the depth of its recursion is bounded by the length of the input. *)
Theorem repeat_content_bounded (T : Type) (p : Parser T) (fuel : nat)
  (s : string) (cs : list T) (u : jsstr) (sf : option (list FailureObject))
  (Hprog : makes_progress p)
  (Hreturns : consume (repeat p) fuel (Some s) = Done (Success cs u sf)) :
  length cs <= Nat.max 1 (String.length s).
Proof.
  destruct (repeat_returns_run _ _ _ Hreturns) as (cs' & u' & E & Hrun).
  inversion E; subst.
  eapply repeat_run_length; [eassumption|eassumption|reflexivity].
Qed.

Lemma repeat_content_bounded_witness :
  length ["a"; "a"] <= Nat.max 1 (String.length "aab").
Proof.
  apply (@repeat_content_bounded _ (str "a") 3 "aab" ["a"; "a"] (Some "b") None).
  - apply str_makes_progress.
  - reflexivity.
Defined.
